(** * kway: k-way merge of ordered range functions

    A shallow embedding of [merge.go] (package [kway]) and the properties
    of its merge engines.

    - A Go [iter.Seq[V]] is a function that takes the consumer's [yield]
      callback.  Here it is a function that threads the consumer's state
      through the calls of [yield]; it reports how its body ended.
    - [iter.Pull] turns a sequence into a cursor; a finite sequence is
      pulled through the list of the values that it yields.
    - Slices are lists, read with stdpp's lookup and written with its
      insert.  Every index and slice expression of the source is
      bounds-checked, and a failed check is a run-time panic ([Fault]).
      [yield] is handed the contents that a slice has at the call.
    - [cmp] returns a Go [int], of which only the sign is used: [Z].  The
      indices [i0], [i1] and [offset] are [nat]: they never pass the
      length of a slice, so that the Go [int] does not wrap around. *)

From Stdlib Require Import ZArith Lia Sorted.
From stdpp Require Import base list sorting.

Set Default Proof Using "Type".

(** ** Sequences *)

(** How the body of a sequence function ended. *)
Inductive status := Done | Panicked | OutOfFuel.

(** [iter.Seq[A]]: [func(yield func(A) bool)]. *)
Definition Seq (A : Type) : Type :=
  ∀ St : Type, (A → St → St * bool) → St → St * status.

(** [for _, a := range l { if !yield(a) { return false } }; return true] *)
Fixpoint range {A St : Type} (yield : A → St → St * bool) (l : list A) (st : St)
  : St * bool :=
  match l with
  | [] => (st, true)
  | a :: l =>
      let '(st, more) := yield a st in
      if more then range yield l st else (st, false)
  end.

(** [slices.Values(l)]: the sequence of the elements of a slice. *)
Definition of_list {A : Type} (l : list A) : Seq A :=
  λ St yield st, ((range yield l st).1, Done).

(** The consumer [for a := range seq { acc = append(acc, a) }]. *)
Definition collect {A : Type} (a : A) (acc : list A) : list A * bool :=
  (acc ++ [a], true).

Definition to_list {A : Type} (seq : Seq A) : list A :=
  (seq (list A) collect []).1.

Definition status_of {A : Type} (seq : Seq A) : status :=
  (seq (list A) collect []).2.

(** [iter.Pull(seq)]: the state of the returned [next] function is the list
    of the values that [seq] has not delivered yet.  The list keeps the
    values of [seq] and not its status: a panic of [seq], which [next]
    would raise again in its caller, is not modelled, so what is said of
    the status of an engine holds for sources that return normally. *)
Definition Pull {A : Type} (seq : Seq A) : list A := to_list seq.

(** ** The package constant *)

Definition bufferSize : nat := 128.

(** The zero value of the element type, which [make([]V, n)] fills in. *)
Class Zero (V : Type) := zero : V.
Global Instance Z_zero : Zero Z := 0%Z.

(** [cmp.Compare] on integers. *)
Definition Compare (x y : Z) : Z :=
  match (x ?= y)%Z with Lt => -1 | Eq => 0 | Gt => 1 end.

(** ** debuffer *)

Definition debuffer {V : Type} (seq : Seq (list V)) : Seq V :=
  λ St yield st, seq St (λ values st, range yield values st) st.

(** Modelled from the spec: [bufferedFunc] is not in [merge.go].  The
    Batched Source Adapter cuts a sequence into batches of the fixed
    capacity, the last one possibly shorter, in source order;
    concatenating the batches gives the sequence back.  [chunks_from]
    does the cutting: [cur] is the batch being filled and [n] the room
    left in it. *)
Fixpoint chunks_from {A : Type} (size : nat) (cur : list A) (n : nat) (l : list A)
  : list (list A) :=
  match l with
  | [] => match cur with [] => [] | _ => [cur] end
  | a :: l =>
      match n with
      | 0 | 1 => (cur ++ [a]) :: chunks_from size [] size l
      | S n => chunks_from size (cur ++ [a]) n l
      end
  end.

(** Modelled from the spec: the batches of the Batched Source Adapter for
    the values [l], at the capacity [size]. *)
Definition chunks {A : Type} (size : nat) (l : list A) : list (list A) :=
  chunks_from size [] size l.

(** Modelled from the spec: [bufferedFunc], the Batched Source Adapter,
    which is not in [merge.go]. *)
Definition bufferedFunc {V : Type} (size : nat) (seq : Seq V) : Seq (list V) :=
  of_list (chunks size (to_list seq)).

(** ** The machine shared by the two merge engines *)

(** What a run does to its sources and to its consumer, in order.  The log
    is a history variable: nothing reads it. *)
Inductive event (V : Type) :=
  | EvNext (src : nat) (batch : list V) (ok : bool)
  | EvYield (batch : list V) (more : bool)
  | EvStop (src : nat).
Arguments EvNext {V}.
Arguments EvYield {V}.
Arguments EvStop {V}.

(** The output side of an engine: its buffer, the consumer, the history. *)
Record port (V S : Type) := Port {
  buffer : list V;
  offset : nat;
  sink : S;
  log : list (event V) }.
Arguments Port {V S}.
Arguments buffer {V S}.
Arguments offset {V S}.
Arguments sink {V S}.
Arguments log {V S}.

Definition set_offset {V S} (n : nat) (p : port V S) : port V S :=
  Port (buffer p) n (sink p) (log p).
Definition set_buffer {V S} (b : list V) (p : port V S) : port V S :=
  Port b (offset p) (sink p) (log p).
Definition add_log {V S} (e : event V) (p : port V S) : port V S :=
  Port (buffer p) (offset p) (sink p) (log p ++ [e]).

(** Why a function body stopped before its end. *)
Inductive halt := Returned | Fault | Fuel.

Inductive outcome (V S A : Type) :=
  | Normal (a : A)
  | Halt (h : halt) (p : port V S).
Arguments Normal {V S A}.
Arguments Halt {V S A}.

Definition bind {V S A A'} (x : outcome V S A) (f : A → outcome V S A')
  : outcome V S A' :=
  match x with
  | Normal a => f a
  | Halt h p => Halt h p
  end.

Notation "'let*' x ':=' e 'in' k" := (bind e (λ x, k))
  (at level 10, x pattern, e at level 100, k at level 200, only parsing).

(** The selection tree of the k-way engine is not in [merge.go]; the engine
    uses it through [makeTree], [next] and [stop] only, and so does the
    model: any type with these three operations. *)
Class Tree (V T : Type) := {
  makeTree : list (Seq (list V)) → T;
  tree_next : (V → V → Z) → T → option V * T;
  tree_stop : T → T }.

(** Modelled from the spec: the tournament tree ([makeTree], [next],
    [stop]) is not in [merge.go].  The Selection-Tree Merge Engine asks
    it for the source that holds the minimum head value, ties broken by
    the lowest source index; the value is emitted and that source moves
    on by one; an exhausted source is never chosen again.  The state
    here is, for every source, the values that it has not given yet. *)
Fixpoint select {V : Type} (cmp : V → V → Z) (best : option (nat * V))
    (i : nat) (srcs : list (list V)) : option (nat * V) :=
  match srcs with
  | [] => best
  | [] :: srcs => select cmp best (S i) srcs
  | (v :: _) :: srcs =>
      match best with
      | Some (_, b) =>
          if (cmp v b <? 0)%Z then select cmp (Some (i, v)) (S i) srcs
          else select cmp best (S i) srcs
      | None => select cmp (Some (i, v)) (S i) srcs
      end
  end.

(** Modelled from the spec: [tree.next(cmp)], the minimum head and the
    tree without it. *)
Definition select_next {V : Type} (cmp : V → V → Z) (t : list (list V))
  : option V * list (list V) :=
  match select cmp None 0 t with
  | Some (i, v) => (Some v, alter (drop 1) i t)
  | None => (None, t)
  end.

(** Modelled from the spec: a selection tree over the values of the
    sources, for the runs below that need one. *)
Global Instance selection_tree {V : Type} : Tree V (list (list V)) := {|
  makeTree seqs := (λ seq, concat (Pull seq)) <$> seqs;
  tree_next := select_next;
  tree_stop t := t |}.

Section engines.
Context {V : Type} `{!Zero V}.
Variable B : nat.                  (* the capacity, [bufferSize] *)
Variable cmp : V → V → Z.

(** What [merge2] knows of one source: the cursor [next] and the locals
    [values], [ok]. *)
Record source := Source {
  nexts : list (list V);
  values : list V;
  ok : bool }.

Section body.
Context {St : Type}.
Variable yield : list V → St → St * bool.

Abbreviation port := (port V St).
Abbreviation outcome := (outcome V St).

(** [yield(batch)] *)
Definition call_yield (batch : list V) (p : port) : port * bool :=
  let '(st, more) := yield batch (sink p) in
  (Port (buffer p) (offset p) st (log p ++ [EvYield batch more]), more).

(** [if !yield(batch) { return }] *)
Definition yield_or_return (batch : list V) (p : port) : outcome port :=
  let '(p, more) := call_yield batch p in
  if more then Normal p else Halt Returned p.

(** [values[i]] *)
Definition index (values : list V) (i : nat) (p : port) : outcome V :=
  match values !! i with
  | Some v => Normal v
  | None => Halt Fault p
  end.

(** [buffer[:n]] *)
Definition slice_to (n : nat) (p : port) : outcome (list V) :=
  if n <=? length (buffer p) then Normal (take n (buffer p)) else Halt Fault p.

(** [buffer[i] = v] *)
Definition store (i : nat) (v : V) (p : port) : outcome port :=
  if i <? length (buffer p) then Normal (set_buffer (<[i:=v]> (buffer p)) p)
  else Halt Fault p.

(** [next()], of the cursor of source [src]; the result is
    [(values, ok)] and the cursor moves on. *)
Definition next (src : nat) (nx : list (list V)) (p : port)
  : list V * bool * list (list V) * port :=
  match nx with
  | [] => ([], false, [], add_log (EvNext src [] false) p)
  | b :: nx => (b, true, nx, add_log (EvNext src b true) p)
  end.

(** *** merge2 *)

(** [if (offset + 1) >= len(buffer) { ... }] (lines 94-99) *)
Definition reserve (p : port) : outcome port :=
  if length (buffer p) <=? offset p + 1 then
    let* batch := slice_to (offset p) p in
    let* p := yield_or_return batch p in
    Normal (set_offset 0 p)
  else Normal p.

(** The body of the inner loop (lines 91-117). *)
Definition body (values0 values1 : list V) (i0 i1 : nat) (p : port)
  : outcome (nat * nat * port) :=
  let* v0 := index values0 i0 p in
  let* v1 := index values1 i1 p in
  let* p := reserve p in
  let diff := cmp v0 v1 in
  if (diff <? 0)%Z then
    let* p := store (offset p) v0 p in
    Normal (i0 + 1, i1, set_offset (offset p + 1) p)
  else if (0 <? diff)%Z then
    let* p := store (offset p) v1 p in
    Normal (i0, i1 + 1, set_offset (offset p + 1) p)
  else
    let* p := store (offset p + 0) v0 p in
    let* p := store (offset p + 1) v1 p in
    Normal (i0 + 1, i1 + 1, set_offset (offset p + 2) p).

(** [for i0 < len(values0) && i1 < len(values1) { ... }] *)
Fixpoint inner (fuel : nat) (values0 values1 : list V) (i0 i1 : nat) (p : port)
  : outcome (nat * nat * port) :=
  if (i0 <? length values0) && (i1 <? length values1) then
    match fuel with
    | 0 => Halt Fuel p
    | S fuel =>
        let* (i0, i1, p) := body values0 values1 i0 i1 p in
        inner fuel values0 values1 i0 i1 p
    end
  else Normal (i0, i1, p).

Definition advance (src : nat) (s : source) (p : port) : source * port :=
  let '(vs, k, nx, p) := next src (nexts s) p in (Source nx vs k, p).

(** One round of [for ok0 && ok1 { ... }] (lines 87-128): the cursors
    [i0], [i1] are declared in the round.  The stores [i0 = 0] and
    [i1 = 0] of lines 121 and 126 are not read by anything: the next
    round declares the cursors anew. *)
Definition round (s0 s1 : source) (p : port) : outcome (source * source * port) :=
  let i0 := 0 in
  let i1 := 0 in
  let* (i0, i1, p) :=
    inner (length (values s0) + length (values s1)) (values s0) (values s1) i0 i1 p in
  let '(s0, p) :=
    if i0 =? length (values s0) then advance 0 s0 p else (s0, p) in
  let '(s1, p) :=
    if i1 =? length (values s1) then advance 1 s1 p else (s1, p) in
  Normal (s0, s1, p).

Fixpoint outer (fuel : nat) (s0 s1 : source) (p : port)
  : outcome (source * source * port) :=
  if ok s0 && ok s1 then
    match fuel with
    | 0 => Halt Fuel p
    | S fuel =>
        let* (s0, s1, p) := round s0 s1 p in
        outer fuel s0 s1 p
    end
  else Normal (s0, s1, p).

(** [flush]: [for ok && yield(values) { values, ok = next() }].  The
    parameters [values] and [ok] are copies; the cursor is shared. *)
Fixpoint flush (src : nat) (nx : list (list V)) (vs : list V) (k : bool) (p : port)
  : list (list V) * port :=
  if k then
    let '(p, more) := call_yield vs p in
    if more then
      match nx with
      | [] => ([], add_log (EvNext src [] false) p)
      | b :: nx => flush src nx b true (add_log (EvNext src b true) p)
      end
    else (nx, p)
  else (nx, p).

(** [defer stop0()] and [defer stop1()] run last, the later one first,
    however the body ends. *)
Definition stops (p : port) : port :=
  add_log (EvStop 0) (add_log (EvStop 1) p).

Definition deferred_stops (r : outcome port) : outcome port :=
  match r with
  | Normal p => Normal (stops p)
  | Halt h p => Halt h (stops p)
  end.

(** After the loop (lines 131-138). *)
Definition finish (s0 s1 : source) (p : port) : outcome port :=
  let* p :=
    (if 0 <? offset p then
       let* batch := slice_to (offset p) p in
       yield_or_return batch p
     else Normal p) in
  let p := (flush 0 (nexts s0) (values s0) (ok s0) p).2 in
  let p := (flush 1 (nexts s1) (values s1) (ok s1) p).2 in
  Normal p.

Definition make_port (st : St) : port := Port (replicate B zero) 0 st [].

(** The function that [merge2] returns, run on the consumer state [st]. *)
Definition merge2_run (seq0 seq1 : Seq (list V)) (st : St) : outcome port :=
  let next0 := Pull seq0 in
  let next1 := Pull seq1 in
  let fuel := length next0 + length next1 in
  let p := make_port st in
  let '(s0, p) := advance 0 (Source next0 [] false) p in
  let '(s1, p) := advance 1 (Source next1 [] false) p in
  deferred_stops (
    let* (s0, s1, p) := outer fuel s0 s1 p in
    finish s0 s1 p).

Definition result (r : outcome port) : St * status :=
  match r with
  | Normal p => (sink p, Done)
  | Halt Returned p => (sink p, Done)
  | Halt Fault p => (sink p, Panicked)
  | Halt Fuel p => (sink p, OutOfFuel)
  end.

(** *** merge *)

Context {T : Type} `{!Tree V T}.

(** [for { v, ok := tree.next(cmp); if !ok { break }; ... }]
    (lines 157-170).  The tree comes back with the outcome, for the
    deferred [tree.stop()]. *)
Fixpoint merge_loop (fuel : nat) (t : T) (p : port) : T * outcome port :=
  match fuel with
  | 0 => (t, Halt Fuel p)
  | S fuel =>
      match tree_next cmp t with
      | (None, t) => (t, Normal p)
      | (Some v, t) =>
          match store (offset p) v p with
          | Halt h p => (t, Halt h p)
          | Normal p =>
              let p := set_offset (offset p + 1) p in
              if offset p =? length (buffer p) then
                match yield_or_return (buffer p) p with
                | Halt h p => (t, Halt h p)
                | Normal p => merge_loop fuel t (set_offset 0 p)
                end
              else merge_loop fuel t p
          end
      end
  end.

(** The function that [merge] returns, run on the consumer state [st]
    for at most [fuel] turns of its loop. *)
Definition merge_run (fuel : nat) (seqs : list (Seq (list V))) (st : St)
  : T * outcome port :=
  let tree := makeTree seqs in
  let '(tree, r) := merge_loop fuel tree (make_port st) in
  (tree_stop tree,
   let* p := r in
   if 0 <? offset p then
     let* batch := slice_to (offset p) p in
     Normal (call_yield batch p).1
   else Normal p).

End body.

Definition merge2 (seq0 seq1 : Seq (list V)) : Seq (list V) :=
  λ St yield st, result (merge2_run yield seq0 seq1 st).

Context {T : Type} `{!Tree V T}.

(** A bound on the turns of the loop of [merge]: one for every value of
    every source, and the last one that finds the tree empty. *)
Definition merge_fuel (seqs : list (Seq (list V))) : nat :=
  S (length (concat (concat (Pull <$> seqs)))).

Definition merge (seqs : list (Seq (list V))) : Seq (list V) :=
  λ St yield st, result (merge_run yield (merge_fuel seqs) seqs st).2.

Definition MergeFunc_with (seqs : list (Seq V)) : Seq V :=
  match seqs with
  | [] => λ St yield st, (st, Done)
  | [seq] => seq
  | [seq0; seq1] =>
      let seq0 := bufferedFunc B seq0 in
      let seq1 := bufferedFunc B seq1 in
      debuffer (merge2 seq0 seq1)
  | _ =>
      let bufferedSeqs := bufferedFunc B <$> seqs in
      debuffer (merge bufferedSeqs)
  end.

Definition MergeSliceFunc_with (seqs : list (Seq (list V))) : Seq (list V) :=
  match seqs with
  | [] => λ St yield st, (st, Done)
  | [seq] => seq
  | [seq0; seq1] => merge2 seq0 seq1
  | _ => merge seqs
  end.

End engines.

(** ** The package's entry points, at the capacity [bufferSize] *)

Definition MergeFunc {V T : Type} `{!Zero V, !Tree V T}
    (cmp : V → V → Z) (seqs : list (Seq V)) : Seq V :=
  MergeFunc_with bufferSize cmp seqs.

Definition MergeSliceFunc {V T : Type} `{!Zero V, !Tree V T}
    (cmp : V → V → Z) (seqs : list (Seq (list V))) : Seq (list V) :=
  MergeSliceFunc_with bufferSize cmp seqs.

Definition Merge {T : Type} `{!Tree Z T} (seqs : list (Seq Z)) : Seq Z :=
  MergeFunc Compare seqs.

Definition MergeSlice {T : Type} `{!Tree Z T} (seqs : list (Seq (list Z)))
  : Seq (list Z) :=
  MergeSliceFunc Compare seqs.

(** ** The plan of a run of merge2

    Which values the loops of [merge2] put into the buffer, and which
    batches they pull, depends on the sources and on [cmp] only, not on
    the buffer or on the consumer.  The plan is that list of actions,
    computed on the side; [merge2_run_plan] below shows that the run
    does what the plan says. *)
Section plan.
Context {V : Type}.
Variable cmp : V → V → Z.
Implicit Types s : source (V:=V).

(** What a step of the loops does. *)
Inductive action :=
  | One (v : V)                (* a less or greater step *)
  | Two (v0 v1 : V)            (* an equal step *)
  | Pulled (src : nat) (batch : list V) (k : bool).   (* a call of [next] *)

Definition choose (v0 v1 : V) (i0 i1 : nat) : action * nat * nat :=
  let diff := cmp v0 v1 in
  if (diff <? 0)%Z then (One v0, i0 + 1, i1)
  else if (0 <? diff)%Z then (One v1, i0, i1 + 1)
  else (Two v0 v1, i0 + 1, i1 + 1).

(** The last component tells whether the fuel was enough. *)
Fixpoint plan_inner (fuel : nat) (values0 values1 : list V) (i0 i1 : nat)
  : list action * (nat * nat) * bool :=
  match values0 !! i0, values1 !! i1 with
  | Some v0, Some v1 =>
      match fuel with
      | 0 => ([], (i0, i1), false)
      | S fuel =>
          let '(a, j0, j1) := choose v0 v1 i0 i1 in
          let '(acts, ij, enough) := plan_inner fuel values0 values1 j0 j1 in
          (a :: acts, ij, enough)
      end
  | _, _ => ([], (i0, i1), true)
  end.

Definition plan_advance (src : nat) (s : source) : list action * source :=
  match nexts s with
  | [] => ([Pulled src [] false], Source [] [] false)
  | b :: nx => ([Pulled src b true], Source nx b true)
  end.

Definition plan_round (s0 s1 : source) : list action * (source * source) * bool :=
  let '(acts, (i0, i1), enough) :=
    plan_inner (length (values s0) + length (values s1))
      (values s0) (values s1) 0 0 in
  if enough then
    let '(a0, s0') :=
      if i0 =? length (values s0) then plan_advance 0 s0 else ([], s0) in
    let '(a1, s1') :=
      if i1 =? length (values s1) then plan_advance 1 s1 else ([], s1) in
    (acts ++ a0 ++ a1, (s0', s1'), true)
  else (acts, (s0, s1), false).

Fixpoint plan_outer (fuel : nat) (s0 s1 : source)
  : list action * (source * source) * bool :=
  if ok s0 && ok s1 then
    match fuel with
    | 0 => ([], (s0, s1), false)
    | S fuel =>
        let '(acts, (s0', s1'), enough) := plan_round s0 s1 in
        if enough then
          let '(acts', ss, enough') := plan_outer fuel s0' s1' in
          (acts ++ acts', ss, enough')
        else (acts, (s0', s1'), false)
    end
  else ([], (s0, s1), true).

(** The values of a plan, in the order in which they enter the buffer. *)
Definition action_values (a : action) : list V :=
  match a with
  | One v => [v]
  | Two v0 v1 => [v0; v1]
  | Pulled _ _ _ => []
  end.

Definition plan_values (acts : list action) : list V :=
  concat (action_values <$> acts).

(** The batches that [flush] hands over when nothing stops it. *)
Definition leftover (s : source) : list (list V) :=
  if ok s then values s :: nexts s else [].

(** The plan of the whole run: the first two calls of [next], then the
    loop; with it, the sources as the loop leaves them. *)
Definition merge2_plan (next0 next1 : list (list V))
  : list action * (source * source) :=
  let '(a0, s0) := plan_advance 0 (Source next0 [] false) in
  let '(a1, s1) := plan_advance 1 (Source next1 [] false) in
  let '(acts, ss, _) := plan_outer (length next0 + length next1) s0 s1 in
  (a0 ++ a1 ++ acts, ss).

(** The values of [merge2], from the plan: no buffer, no consumer. *)
Definition merge2_values (next0 next1 : list (list V)) : list V :=
  let '(acts, (s0, s1)) := merge2_plan next0 next1 in
  plan_values acts ++ concat (leftover s0) ++ concat (leftover s1).

Section interp.
Context {St : Type}.
Variable yield : list V → St → St * bool.

(** What one action of a plan does to the port: the lines of [body]
    after the two reads, or the entry that [next] leaves in the log. *)
Definition emit (a : action) (p : port V St) : outcome V St (port V St) :=
  match a with
  | One v =>
      let* p := reserve yield p in
      let* p := store (offset p) v p in
      Normal (set_offset (offset p + 1) p)
  | Two v0 v1 =>
      let* p := reserve yield p in
      let* p := store (offset p + 0) v0 p in
      let* p := store (offset p + 1) v1 p in
      Normal (set_offset (offset p + 2) p)
  | Pulled src batch k => Normal (add_log (EvNext src batch k) p)
  end.

Fixpoint interp (acts : list action) (p : port V St) : outcome V St (port V St) :=
  match acts with
  | [] => Normal p
  | a :: acts => let* p := emit a p in interp acts p
  end.

End interp.

End plan.

(** ** Definitions used in the statements and proofs *)

Section measures.
Context {V : Type}.

(** What is left to pull from a source, the current batch included. *)
Definition remaining (s : source (V:=V)) : nat :=
  if ok s then S (length (nexts s)) else 0.

End measures.

Section safety.
Context {V St : Type}.

(** The buffer has room for an equal step, and [offset] is within it. *)
Definition roomy (p : port V St) : Prop :=
  2 ≤ length (buffer p) ∧ offset p ≤ length (buffer p).

(** A run that went on, or that the consumer stopped. *)
Definition safe {A : Type} (r : outcome V St A) : Prop :=
  match r with
  | Normal _ => True
  | Halt h _ => h = Returned
  end.

(** An index was out of range. *)
Definition faulted {A : Type} (r : outcome V St A) : bool :=
  match r with
  | Halt Fault _ => true
  | _ => false
  end.

Definition port_of (r : outcome V St (port V St)) : port V St :=
  match r with
  | Normal p => p
  | Halt _ p => p
  end.

End safety.

Section logs.
Context {V : Type}.

(** The batches handed to the consumer, in order. *)
Fixpoint yielded (l : list (event V)) : list (list V) :=
  match l with
  | [] => []
  | EvYield b _ :: l => b :: yielded l
  | _ :: l => yielded l
  end.

End logs.

Section invariants.
Context {V St : Type}.

(** The invariant of the loop of [merge]: room for one more value, and
    only full batches handed over so far. *)
Definition full_batches (p : port V St) : Prop :=
  offset p < length (buffer p)
  ∧ Forall (λ b, length b = length (buffer p)) (yielded (log p)).

End invariants.

(** A run of an engine on some consumer, next to its run on the consumer
    [collect], which never stops: [p] is the port of the first and [q]
    the port of the second. *)
Section simulation.
Context {V St : Type}.
Variable yield : list V → St → St * bool.
Variable st0 : St.

(** Nothing was refused yet: the two runs are at the same point, and the
    consumer has seen the batches collected so far. *)
Definition follows (p : port V St) (q : port V (list (list V))) : Prop :=
  buffer p = buffer q ∧ offset p = offset q
  ∧ range yield (sink q) st0 = (sink p, true).

(** The consumer refused a batch, one of [bs]. *)
Definition refused (p : port V St) (bs : list (list V)) : Prop :=
  ∃ pre, pre `prefix_of` bs ∧ range yield pre st0 = (sink p, false).

Definition osim (r : outcome V St (port V St))
    (r' : outcome V (list (list V)) (port V (list (list V)))) : Prop :=
  match r, r' with
  | Normal p, Normal q => follows p q
  | Halt Returned p, _ => refused p (sink (port_of r'))
  | Halt h p, Halt h' q => h = h' ∧ follows p q
  | _, _ => False
  end.

(** The consumer has seen the collected batches, up to the one it refused. *)
Definition agrees (p : port V St) (q : port V (list (list V))) : Prop :=
  (range yield (sink q) st0).1 = sink p.

End simulation.

Section values.
Context {V : Type}.

(** The values that a collecting run has produced: those handed over and
    those waiting in the buffer. *)
Definition emitted (q : port V (list (list V))) : list V :=
  concat (sink q) ++ take (offset q) (buffer q).

(** A sequence that behaves as the list of its values. *)
Definition list_like {A : Type} (seq : Seq A) : Prop :=
  ∀ (St : Type) (yield : A → St → St * bool) (st : St),
    (seq St yield st).1 = (range yield (to_list seq) st).1.

End values.

Section histories.
Context {V : Type}.






(** The consumer that takes [m] values and refuses the next ones: it
    returns [false] on its [m]-th value. *)
Definition stop_at (m : nat) (v : V) (acc : list V) : list V * bool :=
  (acc ++ [v], negb (length (acc ++ [v]) =? m)).

End histories.

Section tracking.
Context {V St : Type}.
Variable yield : list V → St → St * bool.
Variable st0 : St.



End tracking.


(** ** Definitions for the further properties *)

Section contents.
Context {V : Type}.

(** The values that a source still holds: those of its current batch and
    of the batches to pull. *)
Definition content (s : source (V:=V)) : list V := concat (leftover s).

(** The part of a batch between two cursors. *)
Definition segment (i j : nat) (l : list V) : list V := drop i (take j l).

(** Every batch that a source still holds has at most one value. *)
Definition small (s : source (V:=V)) : Prop :=
  Forall (λ b, length b ≤ 1) (leftover s).

End contents.

Section cursors.
Context {V : Type}.

(** The answers of the calls of [next] on the cursor of source [src],
    in order. *)
Fixpoint pulls (src : nat) (l : list (event V)) : list (list V * bool) :=
  match l with
  | [] => []
  | EvNext i b k :: l => if i =? src then (b, k) :: pulls src l else pulls src l
  | _ :: l => pulls src l
  end.

(** What a cursor over the batches [nx] answers, call after call, up to
    the call that finds it at its end. *)
Definition script (nx : list (list V)) : list (list V * bool) :=
  ((λ b, (b, true)) <$> nx) ++ [([], false)].

(** The answers that a source of [merge2] has yet to give. *)
Definition todo (s : source (V:=V)) : list (list V * bool) :=
  if ok s then script (nexts s) else [].

(** The answers of the calls of [next] that a plan holds. *)
Fixpoint plan_pulls (src : nat) (acts : list (action (V:=V)))
  : list (list V * bool) :=
  match acts with
  | [] => []
  | Pulled i b k :: acts =>
      if i =? src then (b, k) :: plan_pulls src acts else plan_pulls src acts
  | _ :: acts => plan_pulls src acts
  end.

(** Between two calls of [next], the history grows by calls of [yield]
    only. *)
Definition same_pulls {St : Type} (p p' : port V St) : Prop :=
  log p `prefix_of` log p' ∧ ∀ src, pulls src (log p') = pulls src (log p).

End cursors.

Section tree_stream.
Context {V T : Type} `{!Tree V T}.
Variable cmp : V → V → Z.

(** The values that [fuel] calls of [tree.next] give, up to the call that
    finds the tree empty. *)
Fixpoint tree_values (fuel : nat) (t : T) : list V :=
  match fuel with
  | 0 => []
  | S fuel =>
      match tree_next cmp t with
      | (Some v, t) => v :: tree_values fuel t
      | (None, _) => []
      end
  end.

(** One of [fuel] calls of [tree.next] finds the tree empty. *)
Fixpoint tree_ends (fuel : nat) (t : T) : bool :=
  match fuel with
  | 0 => false
  | S fuel =>
      match tree_next cmp t with
      | (Some _, t) => tree_ends fuel t
      | (None, _) => true
      end
  end.

(** The tree after [n] calls of [tree.next]. *)
Fixpoint tree_after (n : nat) (t : T) : T :=
  match n with
  | 0 => t
  | S n => tree_after n (tree_next cmp t).2
  end.

(** The values that a run of [merge] has taken from the tree: those
    handed over and those waiting in the buffer. *)
Definition taken {St : Type} (p : port V St) : list V :=
  concat (yielded (log p)) ++ take (offset p) (buffer p).

End tree_stream.

(** The order of a comparison function: [x] does not come after [y]. *)
Definition not_after {V : Type} (cmp : V → V → Z) : relation V :=
  λ x y, (cmp x y ≤ 0)%Z.

(** A sequence that returns normally whatever its consumer does: it does
    not panic, neither while it is read nor when it is stopped. *)
Definition returns_normally {A : Type} (seq : Seq A) : Prop :=
  ∀ (St : Type) (yield : A → St → St * bool) (st : St),
    (seq St yield st).2 = Done.

(** * Properties *)

(** ** Ranging over a list *)
Section basics.
Context {A St : Type}.
Implicit Types (yield : A → St → St * bool) (l : list A).

Lemma range_app yield l1 l2 st :
  range yield (l1 ++ l2) st =
    let '(st', more) := range yield l1 st in
    if more then range yield l2 st' else (st', false).
Proof.
  revert st. induction l1 as [|a l1 IH]; intros st; simpl; [done|].
  destruct (yield a st) as [st' []]; [apply IH | done].
Qed.

Lemma range_stopped yield l1 l2 st st' :
  range yield l1 st = (st', false) → range yield (l1 ++ l2) st = (st', false).
Proof. intros H. by rewrite range_app, H. Qed.

Lemma range_collect (l acc : list A) : range collect l acc = (acc ++ l, true).
Proof.
  revert acc. induction l as [|a l IH]; intros acc; simpl.
  - by rewrite app_nil_r.
  - rewrite IH. by rewrite <- app_assoc.
Qed.

Lemma to_list_of_list l : to_list (of_list l) = l.
Proof. unfold to_list, of_list. simpl. by rewrite range_collect. Qed.
End basics.

(** ** The loops of merge2 follow their plans *)
Section plan.
Context {V : Type} `{!Zero V}.
Variable B : nat.
Variable cmp : V → V → Z.
Context {St : Type}.
Variable yield : list V → St → St * bool.

Lemma interp_app acts1 acts2 (p : port V St) :
  interp yield (acts1 ++ acts2) p =
    bind (interp yield acts1 p) (interp yield acts2).
Proof.
  revert p. induction acts1 as [|a acts1 IH]; intros p; simpl; [done|].
  destruct (emit yield a p); simpl; [apply IH | done].
Qed.

Lemma body_emit values0 values1 i0 i1 v0 v1 (p : port V St) :
  values0 !! i0 = Some v0 → values1 !! i1 = Some v1 →
  body cmp yield values0 values1 i0 i1 p =
    let '(a, j0, j1) := choose cmp v0 v1 i0 i1 in
    bind (emit yield a p) (λ p, Normal (j0, j1, p)).
Proof.
  intros H0 H1. unfold body, index, choose. rewrite H0, H1. simpl.
  destruct (cmp v0 v1 <? 0)%Z; [|destruct (0 <? cmp v0 v1)%Z]; simpl;
    destruct (reserve yield p) as [q|]; simpl; try done;
    destruct (store _ _ q) as [q'|]; simpl; try done.
  by destruct (store _ _ q').
Qed.

Lemma plan_inner_sound fuel values0 values1 i0 i1 (p : port V St) :
  inner cmp yield fuel values0 values1 i0 i1 p =
    let '(acts, (j0, j1), enough) := plan_inner cmp fuel values0 values1 i0 i1 in
    bind (interp yield acts p)
      (λ p, if enough then Normal (j0, j1, p) else Halt Fuel p).
Proof.
  revert i0 i1 p. induction fuel as [|fuel IH]; intros i0 i1 p; simpl.
  - destruct (values0 !! i0) as [v0|] eqn:H0.
    + destruct (values1 !! i1) as [v1|] eqn:H1.
      * apply lookup_lt_Some in H0, H1.
        destruct (Nat.ltb_spec i0 (length values0)); [|lia].
        destruct (Nat.ltb_spec i1 (length values1)); [|lia]. done.
      * apply lookup_ge_None in H1.
        destruct (Nat.ltb_spec i1 (length values1)); [lia|].
        by rewrite andb_false_r.
    + apply lookup_ge_None in H0.
      destruct (Nat.ltb_spec i0 (length values0)); [lia|]. done.
  - destruct (values0 !! i0) as [v0|] eqn:H0.
    + destruct (values1 !! i1) as [v1|] eqn:H1.
      * rewrite (body_emit _ _ _ _ v0 v1) by done.
        apply lookup_lt_Some in H0, H1.
        destruct (Nat.ltb_spec i0 (length values0)); [|lia].
        destruct (Nat.ltb_spec i1 (length values1)); [|lia]. simpl.
        destruct (choose cmp v0 v1 i0 i1) as [[a j0] j1].
        specialize (IH j0 j1).
        destruct (plan_inner cmp fuel values0 values1 j0 j1) as [[acts [k0 k1]] enough].
        simpl. destruct (emit yield a p) as [q|]; simpl; [apply IH | done].
      * apply lookup_ge_None in H1.
        destruct (Nat.ltb_spec i1 (length values1)); [lia|].
        by rewrite andb_false_r.
    + apply lookup_ge_None in H0.
      destruct (Nat.ltb_spec i0 (length values0)); [lia|]. done.
Qed.

Lemma advance_sound src s (p : port V St) :
  interp yield (plan_advance src s).1 p = Normal (advance src s p).2
  ∧ (advance src s p).1 = (plan_advance src s).2.
Proof. unfold advance, plan_advance, next. by destruct (nexts s). Qed.

Lemma plan_round_sound s0 s1 (p : port V St) :
  round cmp yield s0 s1 p =
    let '(acts, (s0', s1'), enough) := plan_round cmp s0 s1 in
    bind (interp yield acts p)
      (λ p, if enough then Normal (s0', s1', p) else Halt Fuel p).
Proof.
  unfold round, plan_round. rewrite plan_inner_sound.
  destruct (plan_inner _ _ _ _ _ _) as [[acts [i0 i1]] enough].
  destruct enough; [|by destruct (interp yield acts p)].
  destruct (if i0 =? _ then plan_advance 0 s0 else _) as [a0 s0'] eqn:E0.
  destruct (if i1 =? _ then plan_advance 1 s1 else _) as [a1 s1'] eqn:E1.
  rewrite interp_app.
  destruct (interp yield acts p) as [q|]; simpl; [|done].
  rewrite interp_app.
  assert (interp yield a0 q =
            Normal (if i0 =? length (values s0) then advance 0 s0 q else (s0, q)).2
          ∧ (if i0 =? length (values s0) then advance 0 s0 q else (s0, q)).1 = s0')
    as [-> Hs0].
  { destruct (i0 =? _).
    - destruct (advance_sound 0 s0 q) as [? ?]. rewrite E0 in *. done.
    - by inversion E0. }
  destruct (if i0 =? _ then advance 0 s0 q else _) as [t0 q0]. simpl in *. subst t0.
  assert (interp yield a1 q0 =
            Normal (if i1 =? length (values s1) then advance 1 s1 q0 else (s1, q0)).2
          ∧ (if i1 =? length (values s1) then advance 1 s1 q0 else (s1, q0)).1 = s1')
    as [-> Hs1].
  { destruct (i1 =? _).
    - destruct (advance_sound 1 s1 q0) as [? ?]. rewrite E1 in *. done.
    - by inversion E1. }
  destruct (if i1 =? _ then advance 1 s1 q0 else _) as [t1 q1]. simpl in *. by subst t1.
Qed.

Lemma plan_outer_sound fuel s0 s1 (p : port V St) :
  outer cmp yield fuel s0 s1 p =
    let '(acts, (s0', s1'), enough) := plan_outer cmp fuel s0 s1 in
    bind (interp yield acts p)
      (λ p, if enough then Normal (s0', s1', p) else Halt Fuel p).
Proof.
  revert s0 s1 p. induction fuel as [|fuel IH]; intros s0 s1 p; simpl.
  - by destruct (ok s0 && ok s1).
  - destruct (ok s0 && ok s1); [|done].
    rewrite plan_round_sound.
    destruct (plan_round cmp s0 s1) as [[acts [s0' s1']] enough].
    destruct enough; [|by destruct (interp yield acts p)].
    specialize (IH s0' s1').
    destruct (plan_outer cmp fuel s0' s1') as [[acts' [t0 t1]] enough'].
    rewrite interp_app.
    destruct (interp yield acts p) as [q|]; simpl; [apply IH | done].
Qed.
End plan.

(** The fuel of the loops is enough. *)
Section fuel.
Context {V : Type}.
Variable cmp : V → V → Z.

Lemma plan_inner_enough fuel (values0 values1 : list V) i0 i1 :
  i0 ≤ length values0 → i1 ≤ length values1 →
  (length values0 - i0) + (length values1 - i1) ≤ fuel →
  let '(_, (j0, j1), enough) := plan_inner cmp fuel values0 values1 i0 i1 in
  enough = true ∧ j0 ≤ length values0 ∧ j1 ≤ length values1
  ∧ (j0 = length values0 ∨ j1 = length values1).
Proof.
  revert i0 i1. induction fuel as [|fuel IH]; intros i0 i1 Hi0 Hi1 Hf; simpl.
  - destruct (values0 !! i0) eqn:H0; [|apply lookup_ge_None in H0; repeat split; lia].
    destruct (values1 !! i1) eqn:H1; [|apply lookup_ge_None in H1; repeat split; lia].
    apply lookup_lt_Some in H0, H1. lia.
  - destruct (values0 !! i0) as [v0|] eqn:H0;
      [|apply lookup_ge_None in H0; repeat split; lia].
    destruct (values1 !! i1) as [v1|] eqn:H1;
      [|apply lookup_ge_None in H1; repeat split; lia].
    apply lookup_lt_Some in H0, H1.
    destruct (choose cmp v0 v1 i0 i1) as [[a j0] j1] eqn:Hc.
    assert (j0 ≤ length values0 ∧ j1 ≤ length values1
            ∧ (length values0 - j0) + (length values1 - j1) ≤ fuel) as (?&?&?).
    { unfold choose in Hc.
      destruct (cmp v0 v1 <? 0)%Z; [|destruct (0 <? cmp v0 v1)%Z];
        inversion Hc; subst; lia. }
    specialize (IH j0 j1).
    destruct (plan_inner cmp fuel values0 values1 j0 j1) as [[acts [k0 k1]] enough].
    apply IH; done.
Qed.

Lemma plan_advance_remaining src (s : source (V:=V)) :
  ok s = true → S (remaining (plan_advance src s).2) = remaining s.
Proof.
  unfold remaining, plan_advance. intros ->. by destruct (nexts s).
Qed.

Lemma plan_round_enough (s0 s1 : source) :
  ok s0 = true → ok s1 = true →
  let '(_, (s0', s1'), enough) := plan_round cmp s0 s1 in
  enough = true ∧ remaining s0' + remaining s1' < remaining s0 + remaining s1.
Proof.
  intros Hk0 Hk1. unfold plan_round.
  pose proof (plan_inner_enough (length (values s0) + length (values s1))
                (values s0) (values s1) 0 0) as H.
  destruct (plan_inner _ _ _ _ _ _) as [[acts [i0 i1]] enough].
  destruct H as (-> & ? & ? & Hor); [lia..|].
  pose proof (plan_advance_remaining 0 s0 Hk0).
  pose proof (plan_advance_remaining 1 s1 Hk1).
  destruct (Nat.eqb_spec i0 (length (values s0)));
    destruct (Nat.eqb_spec i1 (length (values s1)));
    repeat match goal with |- context [plan_advance ?i ?s] =>
      destruct (plan_advance i s) end; simpl in *; split; try done; lia.
Qed.

Lemma plan_outer_enough fuel (s0 s1 : source) :
  remaining s0 + remaining s1 ≤ fuel →
  let '(_, (s0', s1'), enough) := plan_outer cmp fuel s0 s1 in
  enough = true ∧ ok s0' && ok s1' = false.
Proof.
  revert s0 s1. induction fuel as [|fuel IH]; intros s0 s1 Hf; simpl.
  - destruct (ok s0) eqn:Hk0, (ok s1) eqn:Hk1; simpl;
      rewrite ?Hk0, ?Hk1; try done.
    unfold remaining in Hf. rewrite Hk0, Hk1 in Hf. lia.
  - destruct (ok s0) eqn:Hk0, (ok s1) eqn:Hk1; simpl;
      rewrite ?Hk0, ?Hk1; try done.
    pose proof (plan_round_enough s0 s1 Hk0 Hk1) as H.
    destruct (plan_round cmp s0 s1) as [[acts [s0' s1']] enough].
    destruct H as [-> Hlt].
    specialize (IH s0' s1').
    destruct (plan_outer cmp fuel s0' s1') as [[acts' [t0 t1]] enough'].
    apply IH. lia.
Qed.
End fuel.

(** ** The run of merge2 follows its plan *)
Section run_plan.
Context {V : Type} `{!Zero V}.
Variable B : nat.
Variable cmp : V → V → Z.
Context {St : Type}.
Variable yield : list V → St → St * bool.

Lemma merge2_plan_done (next0 next1 : list (list V)) :
  let '(_, (s0, s1)) := merge2_plan cmp next0 next1 in
  ok s0 && ok s1 = false.
Proof.
  unfold merge2_plan.
  destruct (plan_advance 0 _) as [a0 s0] eqn:E0.
  destruct (plan_advance 1 _) as [a1 s1] eqn:E1.
  pose proof (plan_outer_enough cmp (length next0 + length next1) s0 s1) as H.
  destruct (plan_outer _ _ _ _) as [[acts [t0 t1]] enough].
  apply H.
  assert (remaining s0 = length next0) as ->.
  { unfold plan_advance in E0. simpl in E0. by destruct next0; inversion E0. }
  assert (remaining s1 = length next1) as ->.
  { unfold plan_advance in E1. simpl in E1. by destruct next1; inversion E1. }
  done.
Qed.

Lemma merge2_run_plan (seq0 seq1 : Seq (list V)) (st : St) :
  merge2_run B cmp yield seq0 seq1 st =
    let '(acts, (s0, s1)) := merge2_plan cmp (Pull seq0) (Pull seq1) in
    deferred_stops
      (bind (interp yield acts (make_port B st)) (finish yield s0 s1)).
Proof.
  unfold merge2_run, merge2_plan.
  set (next0 := Pull seq0). set (next1 := Pull seq1).
  destruct (advance_sound (St:=St) yield 0 (Source next0 [] false) (make_port B st))
    as [Hi0 Hs0].
  destruct (plan_advance 0 _) as [a0 s0] eqn:E0.
  destruct (advance 0 _ _) as [t0 p0]. simpl in Hi0, Hs0. subst t0.
  destruct (advance_sound (St:=St) yield 1 (Source next1 [] false) p0) as [Hi1 Hs1].
  destruct (plan_advance 1 _) as [a1 s1] eqn:E1.
  destruct (advance 1 _ _) as [t1 p1]. simpl in Hi1, Hs1. subst t1.
  rewrite plan_outer_sound.
  pose proof (plan_outer_enough cmp (length next0 + length next1) s0 s1) as H.
  destruct (plan_outer _ _ _ _) as [[acts [t0 t1]] enough].
  destruct H as [-> _].
  { assert (remaining s0 = length next0) as ->.
    { unfold plan_advance in E0. simpl in E0. by destruct next0; inversion E0. }
    assert (remaining s1 = length next1) as ->.
    { unfold plan_advance in E1. simpl in E1. by destruct next1; inversion E1. }
    done. }
  rewrite !interp_app, Hi0. simpl. rewrite interp_app, Hi1. simpl.
  by destruct (interp yield acts p1).
Qed.

End run_plan.

(** ** No index is out of range *)
Section safety.
Context {V : Type} `{!Zero V}.
Variable cmp : V → V → Z.
Context {St : Type}.
Variable yield : list V → St → St * bool.
Implicit Types p : port V St.

Lemma call_yield_frame batch p :
  buffer (call_yield yield batch p).1 = buffer p
  ∧ offset (call_yield yield batch p).1 = offset p.
Proof. unfold call_yield. by destruct (yield batch (sink p)). Qed.

Lemma reserve_safe p :
  roomy p →
  match reserve yield p with
  | Normal p' =>
      offset p' + 1 < length (buffer p') ∧ length (buffer p') = length (buffer p)
  | Halt h _ => h = Returned
  end.
Proof.
  intros [HB Ho]. unfold reserve, slice_to, yield_or_return.
  destruct (Nat.leb_spec (length (buffer p)) (offset p + 1)); [|done].
  destruct (Nat.leb_spec (offset p) (length (buffer p))); [|lia]. simpl.
  pose proof (call_yield_frame (take (offset p) (buffer p)) p) as [Hb _].
  destruct (call_yield _ _ _) as [q []]; simpl in *; [|done].
  rewrite Hb. split; [lia|done].
Qed.

Lemma emit_safe a p :
  roomy p →
  match emit yield a p with
  | Normal p' => roomy p' ∧ length (buffer p') = length (buffer p)
  | Halt h _ => h = Returned
  end.
Proof.
  intros Hp. pose proof Hp as [HB Ho]. destruct a as [v|v0 v1|src b k]; simpl.
  - pose proof (reserve_safe p Hp) as H.
    destruct (reserve yield p) as [q|]; simpl; [|done]. destruct H as [Hq Hl].
    unfold store. destruct (Nat.ltb_spec (offset q) (length (buffer q))); [|lia].
    simpl. unfold roomy. simpl. rewrite length_insert. repeat split; lia.
  - pose proof (reserve_safe p Hp) as H.
    destruct (reserve yield p) as [q|]; simpl; [|done]. destruct H as [Hq Hl].
    unfold store.
    destruct (Nat.ltb_spec (offset q + 0) (length (buffer q))); [|lia]. simpl.
    rewrite length_insert.
    destruct (Nat.ltb_spec (offset q + 1) (length (buffer q))); [|lia]. simpl.
    unfold roomy. simpl. rewrite !length_insert. repeat split; lia.
  - done.
Qed.

Lemma interp_safe acts p :
  roomy p →
  match interp yield acts p with
  | Normal p' => roomy p' ∧ length (buffer p') = length (buffer p)
  | Halt h _ => h = Returned
  end.
Proof.
  revert p. induction acts as [|a acts IH]; intros p Hp; simpl; [done|].
  pose proof (emit_safe a p Hp) as H.
  destruct (emit yield a p) as [q|]; simpl; [|done]. destruct H as [Hq Hl].
  specialize (IH q Hq). destruct (interp yield acts q); [|done].
  destruct IH. split; [done|congruence].
Qed.

Lemma finish_safe s0 s1 p : roomy p → safe (finish yield s0 s1 p).
Proof.
  intros [HB Ho]. unfold finish, slice_to, yield_or_return.
  destruct (0 <? offset p); [|done].
  destruct (Nat.leb_spec (offset p) (length (buffer p))); [|lia]. simpl.
  by destruct (call_yield _ _ _) as [q []].
Qed.

Lemma deferred_stops_safe (r : outcome V St (port V St)) :
  safe r → safe (deferred_stops r).
Proof. by destruct r. Qed.

Lemma merge2_run_safe B seq0 seq1 st :
  2 ≤ B → safe (merge2_run B cmp yield seq0 seq1 st).
Proof.
  intros HB. rewrite merge2_run_plan.
  destruct (merge2_plan _ _ _) as [acts [s0 s1]].
  apply deferred_stops_safe.
  assert (roomy (make_port B st)) as Hp.
  { unfold roomy, make_port. simpl. rewrite length_replicate. lia. }
  pose proof (interp_safe acts _ Hp) as H.
  destruct (interp yield acts _) as [q|]; simpl; [|done].
  apply finish_safe, H.
Qed.

(** The same for the k-way engine, whatever the tree. *)
Context {T : Type} `{!Tree V T}.

Lemma yielded_app (l1 l2 : list (event V)) :
  yielded (l1 ++ l2) = yielded l1 ++ yielded l2.
Proof.
  induction l1 as [|e l1 IH]; simpl; [done|].
  destruct e; simpl; by rewrite ?IH.
Qed.

Lemma merge_loop_safe fuel (t : T) p :
  full_batches p →
  match (merge_loop cmp yield fuel t p).2 with
  | Normal p' => full_batches p' ∧ length (buffer p') = length (buffer p)
  | Halt h p' =>
      h ≠ Fault ∧ length (buffer p') = length (buffer p)
      ∧ Forall (λ b, length b = length (buffer p)) (yielded (log p'))
  end.
Proof.
  revert t p. induction fuel as [|fuel IH]; intros t p [Ho Hy]; simpl; [done|].
  destruct (tree_next cmp t) as [[v|] t']; simpl; [|by split].
  unfold store. destruct (Nat.ltb_spec (offset p) (length (buffer p))); [|lia].
  simpl. rewrite length_insert.
  destruct (Nat.eqb_spec (offset p + 1) (length (buffer p))) as [Heq|Hne].
  - unfold yield_or_return, call_yield. simpl.
    destruct (yield _ (sink p)) as [st' more].
    assert (Forall (λ b, length b = length (buffer p))
              (yielded (log p ++ [EvYield (<[offset p:=v]> (buffer p)) more]))) as Hy'.
    { rewrite yielded_app. apply Forall_app. split; [done|].
      simpl. constructor; [by rewrite length_insert | constructor]. }
    destruct more; [|simpl; by rewrite length_insert].
    match goal with |- context [merge_loop _ _ _ _ ?q] => specialize (IH t' q) end.
    unfold full_batches in IH. simpl in IH. rewrite length_insert in IH.
    apply IH. split; [lia|done].
  - match goal with |- context [merge_loop _ _ _ _ ?q] => specialize (IH t' q) end.
    unfold full_batches in IH. simpl in IH. rewrite length_insert in IH.
    apply IH. split; [lia|done].
Qed.

End safety.

(** ** A run on any consumer is the run on [collect], cut at the refusal *)
Section simulation.
Context {V : Type} `{!Zero V}.
Variable cmp : V → V → Z.
Context {St : Type}.
Variable yield : list V → St → St * bool.
Variable st0 : St.
Implicit Types (p : port V St) (q : port V (list (list V))).

Lemma follows_agrees p q : follows yield st0 p q → agrees yield st0 p q.
Proof. intros (_ & _ & H). unfold agrees. by rewrite H. Qed.

Lemma refused_agrees p q : refused yield st0 p (sink q) → agrees yield st0 p q.
Proof.
  intros (pre & [ext Hext] & H). unfold agrees.
  by rewrite Hext, (range_stopped _ _ _ _ _ H).
Qed.

Lemma refused_mono p bs bs' :
  refused yield st0 p bs → bs `prefix_of` bs' → refused yield st0 p bs'.
Proof. intros (pre & Hpre & H) Hbs. exists pre. split; [by etrans|done]. Qed.

Lemma call_yield_collect batch q :
  call_yield collect batch q =
    (Port (buffer q) (offset q) (sink q ++ [batch])
       (log q ++ [EvYield batch true]), true).
Proof. done. Qed.

Lemma call_yield_sim batch p q :
  follows yield st0 p q →
  let p' := (call_yield yield batch p).1 in
  let q' := (call_yield collect batch q).1 in
  buffer p' = buffer q' ∧ offset p' = offset q'
  ∧ if (call_yield yield batch p).2 then follows yield st0 p' q'
    else refused yield st0 p' (sink q').
Proof.
  intros (Hb & Ho & Hr). rewrite call_yield_collect. unfold call_yield. simpl.
  destruct (yield batch (sink p)) as [st' more] eqn:Hy. simpl.
  assert (range yield (sink q ++ [batch]) st0 = (st', more)) as Hr'.
  { rewrite range_app, Hr. simpl. rewrite Hy. by destruct more. }
  repeat split; try done. destruct more.
  - by repeat split.
  - by exists (sink q ++ [batch]).
Qed.

Lemma reserve_sim p q :
  follows yield st0 p q → osim yield st0 (reserve yield p) (reserve collect q).
Proof.
  intros H. pose proof H as (Hb & Ho & Hr).
  unfold reserve, slice_to, yield_or_return. rewrite <- Hb, <- Ho.
  destruct (length (buffer p) <=? offset p + 1); [|done].
  destruct (offset p <=? length (buffer p)); simpl; [|done].
  pose proof (call_yield_sim (take (offset p) (buffer p)) p q H) as (Hb' & Ho' & H').
  rewrite call_yield_collect in *. simpl in *.
  destruct (call_yield yield _ p) as [p' []]; simpl in *; [|done].
  destruct H' as (? & ? & ?). by repeat split.
Qed.

Lemma store_sim i v p q :
  follows yield st0 p q → osim yield st0 (store i v p) (store i v q).
Proof.
  intros (Hb & Ho & Hr). unfold store. rewrite <- Hb.
  destruct (i <? length (buffer p)); simpl; repeat split; simpl; congruence.
Qed.

Lemma set_offset_sim n p q :
  follows yield st0 p q → follows yield st0 (set_offset n p) (set_offset n q).
Proof. intros (Hb & Ho & Hr). by repeat split. Qed.

(** The collecting run only adds batches. *)
Lemma reserve_collect_mono q :
  sink q `prefix_of` sink (port_of (reserve collect q)).
Proof.
  unfold reserve, slice_to, yield_or_return.
  destruct (_ <=? _); [|done]. destruct (_ <=? _); simpl; [|done].
  by apply prefix_app_r.
Qed.

Lemma store_sink {S' : Type} i v (q : port V S') :
  sink (port_of (store i v q)) = sink q.
Proof. unfold store. by destruct (_ <? _). Qed.

Lemma emit_collect_mono a q :
  sink q `prefix_of` sink (port_of (emit collect a q)).
Proof.
  pose proof (reserve_collect_mono q) as H.
  destruct a as [v|v0 v1|src b k]; simpl; [| |done];
    destruct (reserve collect q) as [q1|]; simpl in *; try done.
  - pose proof (store_sink (offset q1) v q1) as Hs.
    destruct (store _ _ q1); simpl in *; by rewrite Hs.
  - pose proof (store_sink (offset q1 + 0) v0 q1) as Hs.
    destruct (store _ _ q1) as [q2|]; simpl in *; [|by rewrite Hs].
    pose proof (store_sink (offset q2 + 1) v1 q2) as Hs'.
    destruct (store _ _ q2); simpl in *; rewrite Hs', Hs; done.
Qed.

Lemma interp_collect_mono acts q :
  sink q `prefix_of` sink (port_of (interp collect acts q)).
Proof.
  revert q. induction acts as [|a acts IH]; intros q; simpl; [done|].
  pose proof (emit_collect_mono a q).
  destruct (emit collect a q) as [q'|]; simpl in *; [|done].
  etrans; [done|apply IH].
Qed.

(** Sequencing keeps the two runs side by side. *)
Lemma bind_sim r r' f f' :
  osim yield st0 r r' →
  (∀ p q, follows yield st0 p q → osim yield st0 (f p) (f' q)) →
  (∀ q, sink q `prefix_of` sink (port_of (f' q))) →
  osim yield st0 (bind r f) (bind r' f').
Proof.
  intros H Hf Hm. destruct r as [p|h p], r' as [q|h' q]; simpl in *.
  - by apply Hf.
  - done.
  - destruct h; try done. simpl. eapply refused_mono; [done|apply Hm].
  - destruct h; done.
Qed.

Lemma emit_sim a p q :
  follows yield st0 p q → osim yield st0 (emit yield a p) (emit collect a q).
Proof.
  intros H. destruct a as [v|v0 v1|src b k]; simpl.
  - apply bind_sim; [by apply reserve_sim| |].
    + intros p1 q1 H1. pose proof H1 as (_ & Ho & _). rewrite Ho.
      apply bind_sim; [by apply store_sim| |].
      * intros p2 q2 H2. pose proof H2 as (_ & Ho2 & _). rewrite Ho2.
        by apply set_offset_sim.
      * done.
    + intros q1. pose proof (store_sink (offset q1) v q1) as Hs.
      destruct (store _ _ q1); simpl in *; by rewrite Hs.
  - apply bind_sim; [by apply reserve_sim| |].
    + intros p1 q1 H1. pose proof H1 as (_ & Ho & _). rewrite Ho.
      apply bind_sim; [by apply store_sim| |].
      * intros p2 q2 H2. pose proof H2 as (_ & Ho2 & _). rewrite Ho2.
        apply bind_sim; [by apply store_sim| |].
        -- intros p3 q3 H3. pose proof H3 as (_ & Ho3 & _). rewrite Ho3.
           by apply set_offset_sim.
        -- done.
      * intros q2. pose proof (store_sink (offset q2 + 1) v1 q2) as Hs.
        destruct (store _ _ q2); simpl in *; by rewrite Hs.
    + intros q1. pose proof (store_sink (offset q1 + 0) v0 q1) as Hs.
      destruct (store _ _ q1) as [q2|]; simpl in *; [|by rewrite Hs].
      pose proof (store_sink (offset q2 + 1) v1 q2) as Hs'.
      destruct (store _ _ q2); simpl in *; rewrite Hs', Hs; done.
  - destruct H as (? & ? & ?). by repeat split.
Qed.

Lemma interp_sim acts p q :
  follows yield st0 p q →
  osim yield st0 (interp yield acts p) (interp collect acts q).
Proof.
  revert p q. induction acts as [|a acts IH]; intros p q H; simpl; [done|].
  apply bind_sim; [by apply emit_sim|done|apply interp_collect_mono].
Qed.

Lemma flush_eq {S' : Type} (y : list V → S' → S' * bool) src nx vs k (p : port V S') :
  flush y src nx vs k p =
    if k then
      let '(p, more) := call_yield y vs p in
      if more then
        match nx with
        | [] => ([], add_log (EvNext src [] false) p)
        | b :: nx => flush y src nx b true (add_log (EvNext src b true) p)
        end
      else (nx, p)
    else (nx, p).
Proof. by destruct nx. Qed.

Lemma flush_collect_mono src nx vs k q :
  sink q `prefix_of` sink (flush collect src nx vs k q).2.
Proof.
  revert vs k q. induction nx as [|b nx IH]; intros vs k q;
    rewrite flush_eq; destruct k; try done; rewrite call_yield_collect.
  - simpl. by apply prefix_app_r.
  - etrans; [|apply IH]. simpl. by apply prefix_app_r.
Qed.

Lemma add_log_sim e p q :
  follows yield st0 p q → follows yield st0 (add_log e p) (add_log e q).
Proof. intros (? & ? & ?). by repeat split. Qed.

Lemma flush_sim src nx vs k p q :
  follows yield st0 p q →
  agrees yield st0 (flush yield src nx vs k p).2 (flush collect src nx vs k q).2
  ∧ (follows yield st0 (flush yield src nx vs k p).2 (flush collect src nx vs k q).2
     ∨ k = true).
Proof.
  revert vs k p q. induction nx as [|b nx IH]; intros vs k p q H;
    rewrite (flush_eq yield), (flush_eq collect); destruct k;
    try (split; [by apply follows_agrees | by left]).
  - pose proof (call_yield_sim vs p q H) as (_ & _ & H').
    rewrite call_yield_collect in *. simpl in *.
    destruct (call_yield yield vs p) as [p' []]; simpl in *.
    + split; [|by right]. by apply follows_agrees, add_log_sim.
    + split; [|by right]. by apply refused_agrees.
  - pose proof (call_yield_sim vs p q H) as (_ & _ & H').
    rewrite call_yield_collect in *. simpl in *.
    destruct (call_yield yield vs p) as [p' []]; simpl in *.
    + split; [|by right]. apply IH. by apply add_log_sim.
    + split; [|by right]. apply refused_agrees.
      eapply refused_mono; [done|].
      match goal with |- _ `prefix_of` sink (flush _ _ _ _ _ ?q').2 =>
        etrans; [|apply (flush_collect_mono src nx b true q')] end.
      done.
Qed.

Lemma flush_off {S' : Type} (y : list V → S' → S' * bool) src nx vs (p : port V S') :
  flush y src nx vs false p = (nx, p).
Proof. by destruct nx. Qed.

Lemma flushes_collect_mono (s0 s1 : source) q :
  sink q `prefix_of`
    sink (flush collect 1 (nexts s1) (values s1) (ok s1)
            (flush collect 0 (nexts s0) (values s0) (ok s0) q).2).2.
Proof. etrans; apply flush_collect_mono. Qed.

Lemma finish_collect_mono s0 s1 q :
  sink q `prefix_of` sink (port_of (finish collect s0 s1 q)).
Proof.
  unfold finish, slice_to, yield_or_return.
  destruct (0 <? offset q); simpl; [|apply flushes_collect_mono].
  destruct (offset q <=? length (buffer q)); simpl; [|done].
  etrans; [|apply flushes_collect_mono]. simpl. by apply prefix_app_r.
Qed.

Lemma flushes_sim (s0 s1 : source) p q :
  follows yield st0 p q → ok s0 && ok s1 = false →
  agrees yield st0
    (flush yield 1 (nexts s1) (values s1) (ok s1)
       (flush yield 0 (nexts s0) (values s0) (ok s0) p).2).2
    (flush collect 1 (nexts s1) (values s1) (ok s1)
       (flush collect 0 (nexts s0) (values s0) (ok s0) q).2).2.
Proof.
  intros H Hk.
  pose proof (flush_sim 0 (nexts s0) (values s0) (ok s0) p q H) as [Ha0 Hf0].
  destruct (ok s0) eqn:Hk0.
  - simpl in Hk. by rewrite Hk, !flush_off.
  - destruct Hf0 as [Hf0|]; [|done]. rewrite !flush_off in *. simpl in *.
    by apply flush_sim.
Qed.

Lemma finish_sim s0 s1 p q :
  follows yield st0 p q → ok s0 && ok s1 = false →
  agrees yield st0 (port_of (finish yield s0 s1 p))
    (port_of (finish collect s0 s1 q)).
Proof.
  intros H Hk. pose proof H as (Hb & Ho & Hr).
  unfold finish, slice_to, yield_or_return. rewrite <- Hb, <- Ho.
  destruct (0 <? offset p); simpl; [|by apply flushes_sim].
  destruct (offset p <=? length (buffer p)); simpl; [|by apply follows_agrees].
  pose proof (call_yield_sim (take (offset p) (buffer p)) p q H) as (_ & _ & H').
  rewrite call_yield_collect in *. simpl in *.
  destruct (call_yield yield _ p) as [p' []]; simpl in *.
  - by apply flushes_sim.
  - apply refused_agrees. eapply refused_mono; [done|].
    match goal with
    | |- _ `prefix_of` sink (flush _ _ _ _ _ (flush _ _ _ _ _ ?q0).2).2 =>
        apply (flushes_collect_mono s0 s1 q0)
    end.
Qed.

End simulation.

(** ** merge2 on any consumer *)
Section range_of_merge2.
Context {V : Type} `{!Zero V}.
Variable B : nat.
Variable cmp : V → V → Z.

Lemma result_sink {St : Type} (r : outcome V St (port V St)) :
  (result r).1 = sink (port_of r).
Proof. by destruct r as [|[] ?]. Qed.

Lemma deferred_stops_sink {St : Type} (r : outcome V St (port V St)) :
  sink (port_of (deferred_stops r)) = sink (port_of r).
Proof. by destruct r. Qed.

Lemma result_safe {St : Type} (r : outcome V St (port V St)) :
  safe r → (result r).2 = Done.
Proof. destruct r as [|h ?]; simpl; [done|]. by intros ->. Qed.

(** Running [merge2] on any consumer is ranging over the batches it
    yields, up to the first one that the consumer refuses. *)
Lemma merge2_range (seq0 seq1 : Seq (list V)) {St : Type}
    (yield : list V → St → St * bool) (st : St) :
  (merge2 B cmp seq0 seq1 St yield st).1 =
    (range yield (to_list (merge2 B cmp seq0 seq1)) st).1.
Proof.
  unfold to_list, merge2. rewrite !result_sink, !merge2_run_plan.
  pose proof (merge2_plan_done cmp (Pull seq0) (Pull seq1)) as Hk.
  destruct (merge2_plan _ _ _) as [acts [s0 s1]].
  rewrite !deferred_stops_sink.
  assert (follows yield st (make_port B st) (make_port B [])) as H by done.
  apply (interp_sim yield st acts) in H.
  symmetry.
  destruct (interp yield acts _) as [p|h p], (interp collect acts _) as [q|h' q];
    simpl in *; try done.
  - by apply finish_sim.
  - destruct h; try done. apply refused_agrees.
    eapply refused_mono; [done|apply finish_collect_mono].
  - destruct h.
    + by apply refused_agrees.
    + apply follows_agrees, H.
    + apply follows_agrees, H.
Qed.

Lemma merge2_status (seq0 seq1 : Seq (list V)) {St : Type}
    (yield : list V → St → St * bool) (st : St) :
  2 ≤ B → (merge2 B cmp seq0 seq1 St yield st).2 = Done.
Proof. intros HB. apply result_safe. by apply merge2_run_safe. Qed.

End range_of_merge2.

(** ** debuffer *)
Section debuffer.
Context {V : Type}.

Lemma range_concat {St : Type} (yield : V → St → St * bool)
    (bs : list (list V)) (st : St) :
  range (λ vs st, range yield vs st) bs st = range yield (concat bs) st.
Proof.
  revert st. induction bs as [|b bs IH]; intros st; simpl; [done|].
  rewrite range_app. destruct (range yield b st) as [st' []]; [apply IH|done].
Qed.

Lemma of_list_like {A : Type} (l : list A) : list_like (of_list l).
Proof. intros St yield st. by rewrite to_list_of_list. Qed.

Lemma to_list_debuffer (seq : Seq (list V)) :
  list_like seq → to_list (debuffer seq) = concat (to_list seq).
Proof.
  intros H. unfold to_list at 1, debuffer. rewrite H, range_concat.
  by rewrite range_collect.
Qed.

Lemma debuffer_like (seq : Seq (list V)) :
  list_like seq → list_like (debuffer seq).
Proof.
  intros H St yield st. rewrite to_list_debuffer by done.
  unfold debuffer. by rewrite H, range_concat.
Qed.

End debuffer.

(** ** The values of merge2 do not depend on the capacity *)
Section values.
Context {V : Type} `{!Zero V}.
Variable cmp : V → V → Z.
Implicit Types q : port V (list (list V)).

Lemma take_store (buf : list V) o v :
  o < length buf → take (S o) (<[o:=v]> buf) = take o buf ++ [v].
Proof.
  intros Ho. rewrite (take_S_r _ _ v) by by apply list_lookup_insert_eq.
  by rewrite take_insert_ge.
Qed.

Lemma reserve_collect_values q :
  roomy q →
  ∃ q', reserve collect q = Normal q' ∧ emitted q' = emitted q
        ∧ offset q' + 1 < length (buffer q')
        ∧ length (buffer q') = length (buffer q).
Proof.
  intros [HB Ho]. unfold reserve, slice_to, yield_or_return.
  destruct (Nat.leb_spec (length (buffer q)) (offset q + 1)).
  - destruct (Nat.leb_spec (offset q) (length (buffer q))); [|lia]. simpl.
    eexists. split; [done|]. unfold emitted. simpl.
    rewrite concat_app. simpl. rewrite !app_nil_r. repeat split; try done; lia.
  - eexists. repeat split; try done; lia.
Qed.

Lemma emit_collect_values a q :
  roomy q →
  ∃ q', emit collect a q = Normal q' ∧ roomy q'
        ∧ emitted q' = emitted q ++ action_values a.
Proof.
  intros Hq. pose proof Hq as [HB Ho].
  destruct (reserve_collect_values q Hq) as (q1 & Hr & He & Ho1 & Hl1).
  destruct a as [v|v0 v1|src b k]; simpl.
  - rewrite Hr. simpl. unfold store.
    destruct (Nat.ltb_spec (offset q1) (length (buffer q1))); [|lia]. simpl.
    eexists. split; [done|]. unfold roomy, emitted in *. simpl.
    rewrite length_insert. split; [lia|].
    rewrite Nat.add_1_r, take_store by lia. by rewrite app_assoc, He.
  - rewrite Hr. simpl. unfold store.
    destruct (Nat.ltb_spec (offset q1 + 0) (length (buffer q1))); [|lia]. simpl.
    rewrite length_insert.
    destruct (Nat.ltb_spec (offset q1 + 1) (length (buffer q1))); [|lia]. simpl.
    eexists. split; [done|]. unfold roomy, emitted in *. simpl.
    rewrite !length_insert. split; [lia|].
    replace (offset q1 + 2) with (S (offset q1 + 1)) by lia.
    rewrite take_store by (rewrite length_insert; lia).
    rewrite Nat.add_0_r, Nat.add_1_r, take_store by lia.
    rewrite <- !app_assoc. simpl. by rewrite app_assoc, He, <- app_assoc.
  - eexists. split; [done|]. unfold emitted. simpl. by rewrite app_nil_r.
Qed.

Lemma interp_collect_values acts q :
  roomy q →
  ∃ q', interp collect acts q = Normal q' ∧ roomy q'
        ∧ emitted q' = emitted q ++ plan_values acts.
Proof.
  revert q. induction acts as [|a acts IH]; intros q Hq; simpl.
  - exists q. unfold plan_values. simpl. by rewrite app_nil_r.
  - destruct (emit_collect_values a q Hq) as (q1 & -> & Hq1 & He1). simpl.
    destruct (IH q1 Hq1) as (q2 & -> & Hq2 & He2).
    exists q2. split; [done|]. split; [done|].
    rewrite He2, He1. unfold plan_values. simpl. by rewrite app_assoc.
Qed.

Lemma flush_collect_values src nx vs k q :
  sink (flush collect src nx vs k q).2 = sink q ++ (if k then vs :: nx else []).
Proof.
  revert vs k q. induction nx as [|b nx IH]; intros vs k q;
    rewrite flush_eq; destruct k; simpl; rewrite ?app_nil_r; try done.
  rewrite IH. simpl. by rewrite <- app_assoc.
Qed.

Lemma finish_collect_values s0 s1 q :
  roomy q →
  ∃ q', finish collect s0 s1 q = Normal q'
        ∧ concat (sink q') = emitted q ++ concat (leftover s0) ++ concat (leftover s1).
Proof.
  intros [HB Ho]. unfold finish, slice_to, yield_or_return, emitted.
  destruct (Nat.ltb_spec 0 (offset q)).
  - destruct (Nat.leb_spec (offset q) (length (buffer q))); [|lia]. simpl.
    eexists. split; [done|]. rewrite !flush_collect_values. simpl.
    rewrite !concat_app. simpl. by rewrite app_nil_r, <- !app_assoc.
  - simpl. eexists. split; [done|]. rewrite !flush_collect_values.
    rewrite !concat_app. replace (offset q) with 0 by lia.
    by rewrite take_0, app_nil_r, <- !app_assoc.
Qed.

Lemma merge2_concat B (seq0 seq1 : Seq (list V)) :
  2 ≤ B →
  concat (to_list (merge2 B cmp seq0 seq1)) =
    merge2_values cmp (Pull seq0) (Pull seq1).
Proof.
  intros HB. unfold to_list, merge2, merge2_values.
  rewrite result_sink, merge2_run_plan.
  destruct (merge2_plan _ _ _) as [acts [s0 s1]].
  rewrite deferred_stops_sink.
  assert (roomy (make_port B ([] : list (list V)))) as Hq.
  { unfold roomy, make_port. simpl. rewrite length_replicate. lia. }
  destruct (interp_collect_values acts _ Hq) as (q1 & -> & Hq1 & He1). simpl.
  destruct (finish_collect_values s0 s1 q1 Hq1) as (q2 & -> & He2). simpl.
  by rewrite He2, He1.
Qed.

End values.

(** ** After a refusal, only the stops *)
Section histories.
Context {V : Type} `{!Zero V}.
Variable cmp : V → V → Z.
Context {St : Type}.
Variable yield : list V → St → St * bool.
Implicit Types (p : port V St) (l : list (event V)).


Lemma call_yield_log batch p :
  log (call_yield yield batch p).1 =
    log p ++ [EvYield batch (call_yield yield batch p).2].
Proof. unfold call_yield. by destruct (yield batch (sink p)). Qed.








End histories.

(** ** The batches of the k-way engine *)
Section merge_batches.
Context {V T : Type} `{!Zero V, !Tree V T}.
Variable cmp : V → V → Z.
Context {St : Type}.
Variable yield : list V → St → St * bool.

Lemma make_port_full B (st : St) : 0 < B → full_batches (make_port B st).
Proof.
  intros HB. split; simpl; [by rewrite length_replicate | constructor].
Qed.

(** Full batches, and then at most one that is shorter and not empty. *)
Lemma merge_run_batches B fuel seqs (st : St) :
  0 < B →
  faulted (merge_run B cmp yield fuel seqs st).2 = false
  ∧ ∃ full last,
      yielded (log (port_of (merge_run B cmp yield fuel seqs st).2)) = full ++ last
      ∧ Forall (λ b, length b = B) full
      ∧ (last = [] ∨ ∃ b, last = [b] ∧ 0 < length b < B).
Proof.
  intros HB. unfold merge_run.
  pose proof (merge_loop_safe cmp yield fuel (makeTree seqs) (make_port B st)
                (make_port_full B st HB)) as H.
  destruct (merge_loop _ _ _ _ _) as [t [p|h p]]; simpl in *;
    rewrite length_replicate in H.
  - destruct H as [[Ho Hy] Hl]. rewrite Hl in *.
    unfold slice_to. destruct (Nat.ltb_spec 0 (offset p)).
    + destruct (Nat.leb_spec (offset p) (length (buffer p))); [|lia]. simpl.
      split; [done|]. rewrite call_yield_log, yielded_app. simpl.
      eexists _, _. split; [done|]. split; [done|]. right. eexists. split; [done|].
      rewrite length_take_le by lia. lia.
    + simpl. split; [done|]. exists (yielded (log p)), [].
      rewrite app_nil_r. split; [done|]. split; [done|]. by left.
  - destruct H as (Hh & Hl & Hy). split; [by destruct h|].
    exists (yielded (log p)), []. rewrite app_nil_r. split; [done|]. split; [done|]. by left.
Qed.

End merge_batches.

(** ** The history and the consumer *)
Section tracking.
Context {V : Type} `{!Zero V}.
Variable cmp : V → V → Z.
Context {St : Type}.
Variable yield : list V → St → St * bool.
Variable st0 : St.
Implicit Types (p : port V St).














End tracking.

(** ** The consumer that stops at its [m]-th value *)
Section stop_at.
Context {V : Type}.




End stop_at.

(** ** MergeFunc on two sequences *)
Section two.
Context {V T : Type} `{!Zero V, !Tree V T}.
Variable cmp : V → V → Z.



End two.

(** ** Equal heads at the start of a run *)
Section equal_steps.
Context {V : Type}.
Variable cmp : V → V → Z.

Lemma plan_inner_equal_steps (pairs : list (V * V)) fuel values0 values1 i0 i1 r0 r1 :
  drop i0 values0 = pairs.*1 ++ r0 → drop i1 values1 = pairs.*2 ++ r1 →
  Forall (λ ab, cmp ab.1 ab.2 = 0%Z) pairs → length pairs ≤ fuel →
  ∃ acts, (plan_inner cmp fuel values0 values1 i0 i1).1.1
          = ((λ ab, Two ab.1 ab.2) <$> pairs) ++ acts.
Proof.
  revert fuel i0 i1.
  induction pairs as [|[a b] pairs IH]; intros fuel i0 i1 H0 H1 Hc Hf; simpl in *.
  { by eexists. }
  destruct fuel as [|fuel]; [lia|].
  apply Forall_cons in Hc as [Hab Hc]. simpl in Hab.
  assert (values0 !! i0 = Some a) as L0.
  { pose proof (lookup_drop values0 i0 0) as E.
    rewrite H0 in E. rewrite Nat.add_0_r in E. done. }
  assert (values1 !! i1 = Some b) as L1.
  { pose proof (lookup_drop values1 i1 0) as E.
    rewrite H1 in E. rewrite Nat.add_0_r in E. done. }
  assert (drop (i0 + 1) values0 = pairs.*1 ++ r0) as D0.
  { by rewrite <- drop_drop, H0. }
  assert (drop (i1 + 1) values1 = pairs.*2 ++ r1) as D1.
  { by rewrite <- drop_drop, H1. }
  simpl. rewrite L0, L1. unfold choose. rewrite Hab. simpl.
  destruct (IH fuel (i0 + 1) (i1 + 1) D0 D1 Hc ltac:(lia)) as [acts Ha].
  destruct (plan_inner cmp fuel values0 values1 (i0 + 1) (i1 + 1)) as [[acts' ij] e].
  simpl in *. subst acts'. by eexists.
Qed.

Lemma merge2_values_equal_steps (pairs : list (V * V)) r0 r1 n0 n1 :
  Forall (λ ab, cmp ab.1 ab.2 = 0%Z) pairs →
  concat ((λ ab, [ab.1; ab.2]) <$> pairs)
    `prefix_of` merge2_values cmp ((pairs.*1 ++ r0) :: n0) ((pairs.*2 ++ r1) :: n1).
Proof.
  intros Hc. unfold merge2_values, merge2_plan. simpl.
  unfold plan_round. simpl.
  set (values0 := pairs.*1 ++ r0). set (values1 := pairs.*2 ++ r1).
  pose proof (plan_inner_enough cmp (length values0 + length values1)
                values0 values1 0 0) as He.
  assert (length pairs ≤ length values0 + length values1) as Hf.
  { unfold values0. rewrite length_app, length_fmap. lia. }
  destruct (plan_inner_equal_steps pairs (length values0 + length values1)
              values0 values1 0 0 r0 r1 eq_refl eq_refl Hc Hf) as [acts Ha].
  destruct (plan_inner _ _ _ _ _ _) as [[acts' [j0 j1]] enough].
  destruct He as (-> & _); [lia..|]. simpl in Ha. subst acts'.
  destruct (if j0 =? _ then _ else _) as [a0 s0'].
  destruct (if j1 =? _ then _ else _) as [a1 s1'].
  destruct (plan_outer _ _ _ _) as [[acts'' [t0 t1]] e].
  unfold plan_values. simpl. rewrite !fmap_app, !concat_app, <- !app_assoc.
  rewrite <- list_fmap_compose. simpl.
  apply prefix_app_r. done.
Qed.

End equal_steps.

(** * The claims *)

(** The k-way case of the spec, on the tree modelled from it. *)
Example merge4 :
  to_list (Merge [of_list [1; 5; 9]; of_list [2; 6; 10];
                  of_list [3; 7; 11]; of_list [4; 8; 12]]%Z)
  = [1; 2; 3; 4; 5; 6; 7; 8; 9; 10; 11; 12]%Z.
Proof. vm_compute. reflexivity. Qed.

(** 130 values from three sources leave [merge] in a full batch and a
    batch of two. *)
Example merge_two_batches :
  length <$> to_list (MergeSlice [of_list [seqZ 0 50]; of_list [seqZ 50 50];
                                  of_list [seqZ 100 30]])
  = [128; 2].
Proof. vm_compute. reflexivity. Qed.

(** C7: [MergeFunc] and [MergeSliceFunc] on no sequence at all give the
    empty sequence, which calls its consumer never and ends normally; on
    one sequence they give back that very sequence. *)
Theorem merge_degenerate {V T : Type} `{!Zero V, !Tree V T} (cmp : V → V → Z) :
  (∀ (St : Type) (yield : V → St → St * bool) (st : St),
      MergeFunc cmp [] St yield st = (st, Done))
  ∧ to_list (MergeFunc cmp []) = []
  ∧ (∀ seq : Seq V, MergeFunc cmp [seq] = seq)
  ∧ (∀ (St : Type) (yield : list V → St → St * bool) (st : St),
      MergeSliceFunc cmp [] St yield st = (st, Done))
  ∧ to_list (MergeSliceFunc cmp []) = []
  ∧ (∀ seq : Seq (list V), MergeSliceFunc cmp [seq] = seq).
Proof. by repeat split. Qed.

(** C9: at the capacity [bufferSize], no read of [values0[i0]] or
    [values1[i1]], no write into the buffer and no slice [buffer[:offset]]
    of [merge2] or of [merge] is out of range, whatever the batches of
    the sources (empty ones too), the comparison, the consumer and, for
    [merge], the tree: no run ends in [Fault], and [merge2] always ends
    normally. *)
Theorem merge_index_in_bounds {V T : Type} `{!Zero V, !Tree V T}
    (cmp : V → V → Z) {St : Type} (yield : list V → St → St * bool) (st : St) :
  (∀ seq0 seq1 : Seq (list V),
      faulted (merge2_run bufferSize cmp yield seq0 seq1 st) = false
      ∧ (merge2 bufferSize cmp seq0 seq1 St yield st).2 = Done)
  ∧ (∀ (fuel : nat) (seqs : list (Seq (list V))),
      faulted (merge_run bufferSize cmp yield fuel seqs st).2 = false).
Proof.
  split.
  - intros seq0 seq1.
    assert (2 ≤ bufferSize) as HB by (unfold bufferSize; lia).
    pose proof (merge2_run_safe cmp yield bufferSize seq0 seq1 st HB) as Hs.
    split; [|by apply result_safe].
    destruct (merge2_run _ _ _ _ _ _) as [p|h p]; simpl in *; [done|].
    by rewrite Hs.
  - intros fuel seqs. apply merge_run_batches. unfold bufferSize. lia.
Qed.

(** C10: every batch that [merge] hands to its consumer is non-empty and
    no longer than [bufferSize], and every batch but the last one has
    exactly [bufferSize] values; for any tree, and however long the loop
    runs. *)
Theorem merge_batch_lengths {V T : Type} `{!Zero V, !Tree V T}
    (cmp : V → V → Z) {St : Type} (yield : list V → St → St * bool)
    (fuel : nat) (seqs : list (Seq (list V))) (st : St) :
  let batches :=
    yielded (log (port_of (merge_run bufferSize cmp yield fuel seqs st).2)) in
  Forall (λ b, 0 < length b ≤ bufferSize) batches
  ∧ Forall (λ b, length b = bufferSize) (take (length batches - 1) batches).
Proof.
  intros batches.
  assert (0 < bufferSize) as HB by (unfold bufferSize; lia).
  destruct (merge_run_batches cmp yield bufferSize fuel seqs st HB)
    as (_ & full & last & Hb & Hfull & Hlast).
  fold batches in Hb. rewrite Hb. clear Hb batches. split.
  - apply Forall_app. split.
    + eapply Forall_impl; [done|]. intros b Hl. simpl in Hl. lia.
    + destruct Hlast as [->|(b & -> & Hl)]; [constructor|].
      constructor; [lia|constructor].
  - destruct Hlast as [->|(b & -> & _)].
    + rewrite app_nil_r. by apply Forall_take.
    + rewrite length_app. simpl.
      replace (length full + 1 - 1) with (length full) by lia.
      by rewrite take_app_length.
Qed.



(** C6: when [cmp] finds the two heads equal, the inner loop of [merge2]
    puts both into the buffer, the value of the first source right before
    the value of the second, moves both cursors on and goes on from there;
    nothing is handed over or dropped in the step.  ([cmp] is only reached
    when the flush before it, if there is one, is not refused.)  In the
    whole run: when the first batches of the two sources begin with values
    that [cmp] finds equal pair by pair, the values that [merge2] yields
    begin with these pairs, each value of the first source right before
    its equal of the second, none of them dropped. *)
Theorem equal_heads_both_emitted {V T St : Type} `{!Zero V, !Tree V T}
    (cmp : V → V → Z) (yield : list V → St → St * bool) (fuel : nat)
    (values0 values1 : list V) (i0 i1 : nat) (v0 v1 : V) (p : port V St) :
  values0 !! i0 = Some v0 → values1 !! i1 = Some v1 →
  cmp v0 v1 = 0%Z → roomy p →
  match reserve yield p with
  | Normal q =>
      ∃ q', body cmp yield values0 values1 i0 i1 p = Normal (i0 + 1, i1 + 1, q')
            ∧ offset q' = offset q + 2
            ∧ take (offset q') (buffer q') = take (offset q) (buffer q) ++ [v0; v1]
            ∧ sink q' = sink q ∧ log q' = log q
            ∧ inner cmp yield (S fuel) values0 values1 i0 i1 p
              = inner cmp yield fuel values0 values1 (i0 + 1) (i1 + 1) q'
  | Halt h q =>
      body cmp yield values0 values1 i0 i1 p = Halt h q
      ∧ inner cmp yield (S fuel) values0 values1 i0 i1 p = Halt h q
  end
  ∧ ∀ (seq0 seq1 : Seq (list V)) (pairs : list (V * V))
      (rest0 rest1 : list V) (more0 more1 : list (list V)),
      to_list seq0 = (pairs.*1 ++ rest0) :: more0 →
      to_list seq1 = (pairs.*2 ++ rest1) :: more1 →
      Forall (λ ab, cmp ab.1 ab.2 = 0%Z) pairs →
      concat ((λ ab, [ab.1; ab.2]) <$> pairs)
        `prefix_of` concat (to_list (MergeSliceFunc cmp [seq0; seq1])).
Proof.
  intros H0 H1 Hc Hp. split.
  - assert (inner cmp yield (S fuel) values0 values1 i0 i1 p
            = bind (body cmp yield values0 values1 i0 i1 p)
                (λ r, inner cmp yield fuel values0 values1 r.1.1 r.1.2 r.2)) as Hi.
    { simpl. apply lookup_lt_Some in H0 as L0. apply lookup_lt_Some in H1 as L1.
      destruct (Nat.ltb_spec i0 (length values0)); [|lia].
      destruct (Nat.ltb_spec i1 (length values1)); [|lia]. simpl.
      by destruct (body cmp yield values0 values1 i0 i1 p) as [[[j0 j1] q]|]. }
    rewrite Hi.
    rewrite (body_emit cmp yield values0 values1 i0 i1 v0 v1 p H0 H1).
    unfold choose. rewrite Hc. simpl.
    pose proof (reserve_safe yield p Hp) as Hr.
    destruct (reserve yield p) as [q|h q]; simpl; [|done].
    destruct Hr as [Ho Hl]. unfold store.
    destruct (Nat.ltb_spec (offset q + 0) (length (buffer q))); [|lia]. simpl.
    rewrite length_insert.
    destruct (Nat.ltb_spec (offset q + 1) (length (buffer q))); [|lia]. simpl.
    eexists. split; [done|]. simpl. repeat split.
    replace (offset q + 2) with (S (offset q + 1)) by lia.
    rewrite take_store by (rewrite length_insert; lia).
    rewrite Nat.add_0_r, Nat.add_1_r, take_store by lia.
    by rewrite <- app_assoc.
  - intros seq0 seq1 pairs rest0 rest1 more0 more1 E0 E1 Hpairs.
    change (MergeSliceFunc cmp [seq0; seq1]) with (merge2 bufferSize cmp seq0 seq1).
    rewrite merge2_concat by (unfold bufferSize; lia).
    unfold Pull. rewrite E0, E1. by apply merge2_values_equal_steps.
Qed.

Lemma equal_heads_both_emitted_witness :
  (∃ q', body Compare (λ _ (st : unit), (st, true)) [5; 7]%Z [5]%Z 0 0
           (make_port bufferSize ())
         = Normal (1, 1, q')
         ∧ offset q' = 2
         ∧ take (offset q') (buffer q') = [5; 5]%Z
         ∧ sink q' = () ∧ log q' = []
         ∧ inner Compare (λ _ (st : unit), (st, true)) 3 [5; 7]%Z [5]%Z 0 0
             (make_port bufferSize ())
           = inner Compare (λ _ (st : unit), (st, true)) 2 [5; 7]%Z [5]%Z 1 1 q')
  ∧ [5; 5; 7; 7]%Z
      `prefix_of` concat (to_list (MergeSliceFunc Compare
                                     [of_list [[5; 7; 9]; [11]]%Z;
                                      of_list [[5; 7; 8]]%Z])).
Proof.
  destruct (equal_heads_both_emitted (T:=list (list Z)) Compare
              (λ _ (st : unit), (st, true)) 2
              [5; 7]%Z [5]%Z 0 0 5%Z 5%Z (make_port bufferSize ()))
    as [Hstep Hrun].
  - reflexivity.
  - reflexivity.
  - reflexivity.
  - split; vm_compute; lia.
  - split; [exact Hstep|].
    apply (Hrun (of_list [[5; 7; 9]; [11]]%Z) (of_list [[5; 7; 8]]%Z)
             [(5, 5); (7, 7)]%Z [9]%Z [8]%Z [[11]]%Z []).
    + reflexivity.
    + reflexivity.
    + repeat constructor.
Defined.

(** C5: the capacity of the batches does change what the merge gives.
    Merging [1,2,3,4,5,6,7,10] and [8,9] gives the ten values in order at
    the capacity 7 and seventeen values at the capacity 128; merging
    [1,3,5] and [2,3,4] gives six values at the capacity 2 and eight at
    the capacity 3.  Every one of these runs ends normally.  The engine
    does the same when it is handed the batches as they are: the round of
    [merge2] that follows a pull starts both cursors at 0 again, and
    [flush] hands over a whole batch (C1 to C4). *)
Theorem capacity_changes_output :
  to_list (MergeFunc_with 7 Compare
             [of_list [1; 2; 3; 4; 5; 6; 7; 10]%Z; of_list [8; 9]%Z])
    = [1; 2; 3; 4; 5; 6; 7; 8; 9; 10]%Z
  ∧ to_list (MergeFunc_with 128 Compare
               [of_list [1; 2; 3; 4; 5; 6; 7; 10]%Z; of_list [8; 9]%Z])
    = [1; 2; 3; 4; 5; 6; 7; 8; 9; 1; 2; 3; 4; 5; 6; 7; 10]%Z
  ∧ status_of (MergeFunc_with 7 Compare
                 [of_list [1; 2; 3; 4; 5; 6; 7; 10]%Z; of_list [8; 9]%Z]) = Done
  ∧ status_of (MergeFunc_with 128 Compare
                 [of_list [1; 2; 3; 4; 5; 6; 7; 10]%Z; of_list [8; 9]%Z]) = Done
  ∧ to_list (MergeFunc_with 2 Compare [of_list [1; 3; 5]%Z; of_list [2; 3; 4]%Z])
    = [1; 2; 3; 3; 4; 5]%Z
  ∧ to_list (MergeFunc_with 3 Compare [of_list [1; 3; 5]%Z; of_list [2; 3; 4]%Z])
    = [1; 2; 3; 3; 4; 1; 3; 5]%Z
  ∧ status_of (MergeFunc_with 2 Compare
                 [of_list [1; 3; 5]%Z; of_list [2; 3; 4]%Z]) = Done
  ∧ status_of (MergeFunc_with 3 Compare
                 [of_list [1; 3; 5]%Z; of_list [2; 3; 4]%Z]) = Done
  ∧ to_list (debuffer (merge2 7 Compare
                         (of_list [[1; 2; 3; 4; 5; 6; 7]; [10]]%Z)
                         (of_list [[8; 9]]%Z)))
    = [1; 2; 3; 4; 5; 6; 7; 8; 9; 10]%Z
  ∧ to_list (debuffer (merge2 128 Compare
                         (of_list [[1; 2; 3; 4; 5; 6; 7; 10]]%Z)
                         (of_list [[8; 9]]%Z)))
    = [1; 2; 3; 4; 5; 6; 7; 8; 9; 1; 2; 3; 4; 5; 6; 7; 10]%Z.
Proof. vm_compute. by repeat split. Qed.

(** At the capacity 1 an equal step writes two values, and the second
    write is out of range: the engine needs a buffer of two slots. *)
Lemma capacity_one_faults :
  to_list (MergeFunc_with 1 Compare [of_list [5]%Z; of_list [5]%Z])
    ≠ to_list (MergeFunc_with 128 Compare [of_list [5]%Z; of_list [5]%Z])
  ∧ to_list (MergeFunc_with 1 Compare [of_list [5]%Z; of_list [5]%Z]) = []
  ∧ status_of (MergeFunc_with 1 Compare [of_list [5]%Z; of_list [5]%Z]) = Panicked
  ∧ to_list (MergeFunc_with 128 Compare [of_list [5]%Z; of_list [5]%Z]) = [5; 5]%Z.
Proof. vm_compute. repeat split; discriminate. Qed.

(** C1, on the code: merging [1,3,5] and [2,3,4] gives the values 1 and 3
    of the first sequence twice; the result is neither sorted nor a
    permutation of the inputs.  The engine does the same when it is
    handed the two batches as they are. *)
Theorem merge_not_sorted_union :
  to_list (Merge [of_list [1; 3; 5]%Z; of_list [2; 3; 4]%Z])
    = [1; 2; 3; 3; 4; 1; 3; 5]%Z
  ∧ ¬ Sorted (λ x y, (Compare x y ≤ 0)%Z)
        (to_list (Merge [of_list [1; 3; 5]%Z; of_list [2; 3; 4]%Z]))
  ∧ ¬ to_list (Merge [of_list [1; 3; 5]%Z; of_list [2; 3; 4]%Z])
        ≡ₚ [1; 3; 5]%Z ++ [2; 3; 4]%Z
  ∧ concat (to_list (MergeSlice [of_list [[1; 3; 5]%Z]; of_list [[2; 3; 4]%Z]]))
    = [1; 2; 3; 3; 4; 1; 3; 5]%Z.
Proof.
  assert (to_list (Merge [of_list [1; 3; 5]%Z; of_list [2; 3; 4]%Z])
          = [1; 2; 3; 3; 4; 1; 3; 5]%Z) as -> by (vm_compute; done).
  split; [done|]. split; [|split].
  - intros H. do 4 (apply Sorted_inv in H as [H _]).
    apply Sorted_inv in H as [_ H]. apply HdRel_inv in H.
    vm_compute in H. by apply H.
  - intros H. apply Permutation_length in H. discriminate.
  - by vm_compute.
Qed.

(** C2, on the code: merging [1,3] and [2] yields four values, from the
    sequences and from the batches alike. *)
Theorem merge_length_exceeds :
  to_list (Merge [of_list [1; 3]%Z; of_list [2]%Z]) = [1; 2; 1; 3]%Z
  ∧ length (to_list (Merge [of_list [1; 3]%Z; of_list [2]%Z]))
    ≠ length [1; 3]%Z + length [2]%Z
  ∧ to_list (MergeSlice [of_list [[1; 3]%Z]; of_list [[2]%Z]])
    = [[1; 2]; [1; 3]]%Z.
Proof. vm_compute. split; [done|]. split; [lia|done]. Qed.

(** C3, on the code: merging [1,3,5] and [2,3,4] yields
    [1,2,3,3,4,1,3,5]; so does the engine under the debuffer on the two
    batches. *)
Theorem merge_literal :
  to_list (MergeFunc Compare [of_list [1; 3; 5]%Z; of_list [2; 3; 4]%Z])
    = [1; 2; 3; 3; 4; 1; 3; 5]%Z
  ∧ to_list (MergeFunc Compare [of_list [1; 3; 5]%Z; of_list [2; 3; 4]%Z])
    ≠ [1; 2; 3; 3; 4; 5]%Z
  ∧ to_list (debuffer (merge2 bufferSize Compare
                         (of_list [[1; 3; 5]%Z]) (of_list [[2; 3; 4]%Z])))
    = [1; 2; 3; 3; 4; 1; 3; 5]%Z.
Proof. vm_compute. split; [done|]. split; [discriminate|done]. Qed.

(** C4, on the code: when the second source is exhausted, with 1 and 3 of
    the batch [1,3,5] of the first source already in the output, [flush]
    hands over the whole batch [1,3,5], not its remainder [5]; and
    whatever the sources are, a [flush] that nothing stops hands over the
    whole current batch and then the batches still to pull. *)
Theorem flush_whole_batch :
  log (port_of (merge2_run bufferSize Compare collect
                  (of_list [[1; 3; 5]%Z]) (of_list [[2; 3; 4]%Z]) []))
    = [EvNext 0 [1; 3; 5]%Z true; EvNext 1 [2; 3; 4]%Z true;
       EvNext 1 [] false; EvYield [1; 2; 3; 3; 4]%Z true;
       EvYield [1; 3; 5]%Z true; EvNext 0 [] false; EvStop 1; EvStop 0]
  ∧ ∀ (V : Type) (src : nat) (nx : list (list V)) (vs : list V)
      (q : port V (list (list V))),
      sink (flush collect src nx vs true q).2 = sink q ++ vs :: nx.
Proof.
  split; [by vm_compute|]. intros V src nx vs q.
  apply (flush_collect_values src nx vs true q).
Qed.

(** * Further properties of the engines *)

(** ** What the plan of merge2 emits *)
Section plan_values.
Context {V : Type}.
Variable cmp : V → V → Z.
Implicit Types s : source (V:=V).

Lemma plan_values_cons (a : action) (acts : list (action (V:=V))) :
  plan_values (a :: acts) = action_values a ++ plan_values acts.
Proof. done. Qed.

Lemma plan_values_app (acts1 acts2 : list (action (V:=V))) :
  plan_values (acts1 ++ acts2) = plan_values acts1 ++ plan_values acts2.
Proof. unfold plan_values. by rewrite fmap_app, concat_app. Qed.

Lemma plan_advance_values src s : plan_values (plan_advance src s).1 = [].
Proof. unfold plan_advance. by destruct (nexts s). Qed.

Lemma plan_advance_content src s :
  ok s = true → content s = values s ++ content (plan_advance src s).2.
Proof.
  unfold content, leftover, plan_advance. intros ->.
  destruct (nexts s); simpl; by rewrite ?app_nil_r.
Qed.

Lemma segment_nil i (l : list V) : segment i i l = [].
Proof. unfold segment. apply drop_ge. rewrite length_take. lia. Qed.

Lemma segment_cons i j (l : list V) v :
  l !! i = Some v → i < j → segment i j l = v :: segment (S i) j l.
Proof.
  intros Hv Hij. unfold segment. apply drop_S. by rewrite lookup_take_lt.
Qed.

(** The steps of the inner loop emit the values between the cursors at
    its start and at its end, those of either batch in their order. *)
Lemma plan_inner_values fuel (values0 values1 : list V) i0 i1 :
  let '(acts, (j0, j1), _) := plan_inner cmp fuel values0 values1 i0 i1 in
  i0 ≤ j0 ∧ i1 ≤ j1
  ∧ plan_values acts ≡ₚ segment i0 j0 values0 ++ segment i1 j1 values1
  ∧ segment i0 j0 values0 `sublist_of` plan_values acts
  ∧ segment i1 j1 values1 `sublist_of` plan_values acts.
Proof.
  revert i0 i1. induction fuel as [|fuel IH]; intros i0 i1; simpl.
  - destruct (values0 !! i0), (values1 !! i1); rewrite !segment_nil; by repeat split.
  - destruct (values0 !! i0) as [v0|] eqn:H0;
      [|rewrite !segment_nil; by repeat split].
    destruct (values1 !! i1) as [v1|] eqn:H1;
      [|rewrite !segment_nil; by repeat split].
    unfold choose.
    destruct (cmp v0 v1 <? 0)%Z; [|destruct (0 <? cmp v0 v1)%Z].
    + specialize (IH (i0 + 1) i1).
      destruct (plan_inner _ _ _ _ _ _) as [[acts [j0 j1]] en].
      destruct IH as (Hi0 & Hi1 & Hp & Hs0 & Hs1).
      replace (i0 + 1) with (S i0) in * by lia.
      replace (i1 + 1) with (S i1) in * by lia.
      rewrite plan_values_cons, (segment_cons i0 j0 values0 v0) by (done || lia).
      simpl. repeat split; [lia|done|by rewrite Hp|by apply sublist_skip
                            |by apply sublist_cons].
    + specialize (IH i0 (i1 + 1)).
      destruct (plan_inner _ _ _ _ _ _) as [[acts [j0 j1]] en].
      destruct IH as (Hi0 & Hi1 & Hp & Hs0 & Hs1).
      replace (i0 + 1) with (S i0) in * by lia.
      replace (i1 + 1) with (S i1) in * by lia.
      rewrite plan_values_cons, (segment_cons i1 j1 values1 v1) by (done || lia).
      simpl. repeat split; [done|lia| |by apply sublist_cons|by apply sublist_skip].
      rewrite Hp. apply Permutation_middle.
    + specialize (IH (i0 + 1) (i1 + 1)).
      destruct (plan_inner _ _ _ _ _ _) as [[acts [j0 j1]] en].
      destruct IH as (Hi0 & Hi1 & Hp & Hs0 & Hs1).
      replace (i0 + 1) with (S i0) in * by lia.
      replace (i1 + 1) with (S i1) in * by lia.
      rewrite plan_values_cons, (segment_cons i0 j0 values0 v0) by (done || lia).
      rewrite (segment_cons i1 j1 values1 v1) by (done || lia).
      simpl. repeat split; [lia|lia| | |].
      * rewrite Hp. constructor. apply Permutation_middle.
      * by apply sublist_skip, sublist_cons.
      * by apply sublist_cons, sublist_skip.
Qed.

(** What a round does with one of its sources, whose cursor it leaves at
    [j]: the values before the cursor are emitted; the batch is pulled
    over when the cursor is at its end, and is kept as it is otherwise,
    its emitted values with it. *)
Lemma round_source src s j :
  ok s = true → j ≤ length (values s) →
  let r := if j =? length (values s) then plan_advance src s else ([], s) in
  plan_values r.1 = []
  ∧ content s `sublist_of` take j (values s) ++ content r.2
  ∧ (∃ junk, take j (values s) ++ content r.2 = junk ++ content s
             ∧ (small s → junk = []))
  ∧ (small s → small r.2)
  ∧ leftover r.2 `suffix_of` leftover s.
Proof.
  intros Hk Hj. simpl. destruct (Nat.eqb_spec j (length (values s))) as [->|Hne].
  - rewrite plan_advance_values, take_ge by done.
    rewrite (plan_advance_content src s Hk).
    assert (leftover (plan_advance src s).2 `suffix_of` leftover s) as Hsuf.
    { unfold leftover, plan_advance. rewrite Hk.
      destruct (nexts s); simpl; [apply suffix_nil|by apply suffix_cons_r]. }
    repeat split; [done| | |done].
    + exists []. by split.
    + unfold small. destruct Hsuf as [k ->]. intros Hs.
      by apply Forall_app in Hs as [_ ?].
  - simpl. repeat split; [by apply sublist_inserts_l| |done|done].
    exists (take j (values s)). split; [done|].
    unfold small, leftover. rewrite Hk. intros Hs.
    apply Forall_cons in Hs as [Hs _].
    replace j with 0 by lia. done.
Qed.

Lemma plan_round_values s0 s1 :
  ok s0 = true → ok s1 = true →
  let '(acts, (s0', s1'), _) := plan_round cmp s0 s1 in
  content s0 `sublist_of` plan_values acts ++ content s0'
  ∧ content s1 `sublist_of` plan_values acts ++ content s1'
  ∧ (∃ junk, plan_values acts ++ content s0' ++ content s1'
               ≡ₚ content s0 ++ content s1 ++ junk
             ∧ (small s0 → small s1 → junk = []))
  ∧ (small s0 → small s0') ∧ (small s1 → small s1')
  ∧ leftover s0' `suffix_of` leftover s0
  ∧ leftover s1' `suffix_of` leftover s1.
Proof.
  intros Hk0 Hk1. unfold plan_round.
  pose proof (plan_inner_enough cmp (length (values s0) + length (values s1))
                (values s0) (values s1) 0 0) as He.
  pose proof (plan_inner_values (length (values s0) + length (values s1))
                (values s0) (values s1) 0 0) as Hv.
  destruct (plan_inner _ _ _ _ _ _) as [[acts [j0 j1]] enough].
  destruct He as (-> & Hj0 & Hj1 & _); [lia..|].
  destruct Hv as (_ & _ & Hp & Hs0 & Hs1). unfold segment in *. simpl in *.
  destruct (round_source 0 s0 j0 Hk0 Hj0) as (Ha0 & Hsub0 & (junk0 & Hjk0 & Hz0) & Hsm0 & Hsuf0).
  destruct (round_source 1 s1 j1 Hk1 Hj1) as (Ha1 & Hsub1 & (junk1 & Hjk1 & Hz1) & Hsm1 & Hsuf1).
  simpl in *.
  destruct (if j0 =? _ then plan_advance 0 s0 else _) as [a0 s0'].
  destruct (if j1 =? _ then plan_advance 1 s1 else _) as [a1 s1'].
  simpl in *. rewrite !plan_values_app, Ha0, Ha1, !app_nil_r.
  repeat split; try done.
  - etrans; [done|]. by apply sublist_app.
  - etrans; [done|]. by apply sublist_app.
  - exists (junk0 ++ junk1). split.
    + transitivity ((take j0 (values s0) ++ content s0')
                    ++ (take j1 (values s1) ++ content s1')).
      { rewrite Hp. solve_Permutation. }
      rewrite Hjk0, Hjk1. solve_Permutation.
    + intros H0 H1. by rewrite Hz0, Hz1.
Qed.

(** The loop as a whole: it emits the values of both sources, those of
    either source in their order; what it emits besides are values of
    batches that a round left unfinished, emitted again. *)
Lemma plan_outer_values fuel s0 s1 :
  let '(acts, (s0', s1'), _) := plan_outer cmp fuel s0 s1 in
  content s0 `sublist_of` plan_values acts ++ content s0'
  ∧ content s1 `sublist_of` plan_values acts ++ content s1'
  ∧ (∃ junk, plan_values acts ++ content s0' ++ content s1'
               ≡ₚ content s0 ++ content s1 ++ junk
             ∧ (small s0 → small s1 → junk = []))
  ∧ leftover s0' `suffix_of` leftover s0
  ∧ leftover s1' `suffix_of` leftover s1.
Proof.
  revert s0 s1. induction fuel as [|fuel IH]; intros s0 s1; simpl.
  - destruct (ok s0 && ok s1); repeat split; try done;
      exists []; by rewrite app_nil_r.
  - destruct (ok s0) eqn:Hk0, (ok s1) eqn:Hk1; simpl;
      try (repeat split; try done; exists []; by rewrite app_nil_r).
    pose proof (plan_round_values s0 s1 Hk0 Hk1) as Hr.
    destruct (plan_round cmp s0 s1) as [[acts [t0 t1]] enough].
    destruct Hr as (Hs0 & Hs1 & (junk & Hp & Hz) & Hsm0 & Hsm1 & Hsuf0 & Hsuf1).
    destruct enough.
    2:{ repeat split; try done. by exists junk. }
    specialize (IH t0 t1).
    destruct (plan_outer cmp fuel t0 t1) as [[acts' [u0 u1]] enough'].
    destruct IH as (Hs0' & Hs1' & (junk' & Hp' & Hz') & Hsuf0' & Hsuf1').
    rewrite plan_values_app, <- !app_assoc. repeat split.
    + etrans; [done|]. by apply sublist_app.
    + etrans; [done|]. by apply sublist_app.
    + exists (junk ++ junk'). split.
      * rewrite Hp'.
        transitivity ((plan_values acts ++ content t0 ++ content t1) ++ junk').
        { solve_Permutation. }
        rewrite Hp. solve_Permutation.
      * intros H0 H1. by rewrite Hz, Hz'; auto.
    + by etrans.
    + by etrans.
Qed.

Lemma leftover_first src (nx : list (list V)) :
  leftover (plan_advance src (Source nx [] false)).2 = nx.
Proof. unfold plan_advance, leftover. by destruct nx. Qed.

Lemma merge2_values_spec (next0 next1 : list (list V)) :
  concat next0 `sublist_of` merge2_values cmp next0 next1
  ∧ concat next1 `sublist_of` merge2_values cmp next0 next1
  ∧ ∃ junk, merge2_values cmp next0 next1 ≡ₚ concat next0 ++ concat next1 ++ junk
            ∧ (Forall (λ b, length b ≤ 1) next0 →
               Forall (λ b, length b ≤ 1) next1 → junk = []).
Proof.
  unfold merge2_values, merge2_plan.
  pose proof (leftover_first 0 next0) as Hl0.
  pose proof (leftover_first 1 next1) as Hl1.
  pose proof (plan_advance_values 0 (Source next0 [] false)) as Ha0.
  pose proof (plan_advance_values 1 (Source next1 [] false)) as Ha1.
  destruct (plan_advance 0 _) as [a0 s0].
  destruct (plan_advance 1 _) as [a1 s1]. simpl in *.
  pose proof (plan_outer_values (length next0 + length next1) s0 s1) as H.
  destruct (plan_outer _ _ _ _) as [[acts [t0 t1]] enough].
  destruct H as (Hs0 & Hs1 & (junk & Hp & Hz) & _ & _).
  unfold content, small in *. rewrite Hl0, Hl1 in *.
  rewrite !plan_values_app, Ha0, Ha1. simpl. repeat split.
  - etrans; [done|]. rewrite app_assoc. by apply sublist_inserts_r.
  - etrans; [done|]. apply sublist_app; [done|]. by apply sublist_inserts_l.
  - by exists junk.
Qed.

End plan_values.

(** ** merge2 loses nothing *)

(** X1: the pairwise engine loses no value: all the values of the
    batches of both sources, counted as often as they occur there, are
    among the values that it yields. *)
Theorem merge2_keeps_every_value {V T : Type} `{!Zero V, !Tree V T}
    (cmp : V → V → Z) (seq0 seq1 : Seq (list V)) :
  concat (to_list seq0) ++ concat (to_list seq1)
    ⊆+ concat (to_list (MergeSliceFunc cmp [seq0; seq1])).
Proof.
  change (MergeSliceFunc cmp [seq0; seq1]) with (merge2 bufferSize cmp seq0 seq1).
  rewrite merge2_concat by (unfold bufferSize; lia).
  destruct (merge2_values_spec cmp (Pull seq0) (Pull seq1))
    as (_ & _ & junk & -> & _).
  rewrite app_assoc. by apply submseteq_inserts_r.
Qed.

(** X2: the values of either source keep their order: the values of the
    batches of a source, in the order in which the source gives them, are
    a subsequence of the values that the pairwise engine yields. *)
Theorem merge2_keeps_source_order {V T : Type} `{!Zero V, !Tree V T}
    (cmp : V → V → Z) (seq0 seq1 : Seq (list V)) :
  concat (to_list seq0)
    `sublist_of` concat (to_list (MergeSliceFunc cmp [seq0; seq1]))
  ∧ concat (to_list seq1)
    `sublist_of` concat (to_list (MergeSliceFunc cmp [seq0; seq1])).
Proof.
  change (MergeSliceFunc cmp [seq0; seq1]) with (merge2 bufferSize cmp seq0 seq1).
  rewrite merge2_concat by (unfold bufferSize; lia).
  destruct (merge2_values_spec cmp (Pull seq0) (Pull seq1)) as (H0 & H1 & _).
  by split.
Qed.

(** X3: when no batch of the two sources has more than one value, the
    pairwise engine yields every value exactly as often as the sources
    hold it: its output is a permutation of their values. *)
Theorem merge2_single_value_batches {V T : Type} `{!Zero V, !Tree V T}
    (cmp : V → V → Z) (seq0 seq1 : Seq (list V)) :
  Forall (λ b, length b ≤ 1) (to_list seq0) →
  Forall (λ b, length b ≤ 1) (to_list seq1) →
  concat (to_list (MergeSliceFunc cmp [seq0; seq1]))
    ≡ₚ concat (to_list seq0) ++ concat (to_list seq1).
Proof.
  intros H0 H1.
  change (MergeSliceFunc cmp [seq0; seq1]) with (merge2 bufferSize cmp seq0 seq1).
  rewrite merge2_concat by (unfold bufferSize; lia).
  destruct (merge2_values_spec cmp (Pull seq0) (Pull seq1))
    as (_ & _ & junk & -> & Hz).
  rewrite (Hz H0 H1). by rewrite app_nil_r.
Qed.

Lemma merge2_single_value_batches_witness :
  concat (to_list (MergeSliceFunc Compare
                     [of_list [[1]; []; [3]]%Z; of_list [[2]; [3]]%Z]))
    ≡ₚ concat (to_list (of_list [[1]; []; [3]]%Z))
       ++ concat (to_list (of_list [[2]; [3]]%Z)).
Proof.
  apply (merge2_single_value_batches Compare
           (of_list [[1]; []; [3]]%Z) (of_list [[2]; [3]]%Z)).
  - rewrite to_list_of_list. repeat constructor.
  - rewrite to_list_of_list. repeat constructor.
Defined.

(** ** debuffer, flush and merge2 on any consumer *)

(** X4: [debuffer] gives the values of the batches in their order, empty
    batches giving nothing, and it stops at the first value that the
    consumer refuses, within a batch too: on a sequence that behaves as
    the list of its batches, it behaves as the list of their values. *)
Theorem debuffer_flattens {V St : Type} (seq : Seq (list V))
    (yield : V → St → St * bool) (st : St) :
  list_like seq →
  (debuffer seq St yield st).1 = (range yield (concat (to_list seq)) st).1
  ∧ to_list (debuffer seq) = concat (to_list seq).
Proof.
  intros H. split; [|by apply to_list_debuffer].
  rewrite <- (to_list_debuffer seq H). by apply debuffer_like.
Qed.

Lemma debuffer_flattens_witness :
  (debuffer (of_list [[1; 2]; []; [3]]) (list nat) (stop_at 2) []).1
    = (range (stop_at 2) (concat (to_list (of_list [[1; 2]; []; [3]]))) []).1
  ∧ to_list (debuffer (of_list [[1; 2]; []; [3]]))
    = concat (to_list (of_list [[1; 2]; []; [3]])).
Proof.
  apply (debuffer_flattens (of_list [[1; 2]; []; [3]]) (stop_at 2) []).
  apply of_list_like.
Defined.

Section flush.
Context {V St : Type}.
Variable yield : list V → St → St * bool.
Implicit Types p : port V St.

Lemma flush_sink src nx vs p :
  sink (flush yield src nx vs true p).2 = (range yield (vs :: nx) (sink p)).1.
Proof.
  revert vs p. induction nx as [|b nx IH]; intros vs p;
    rewrite flush_eq; unfold call_yield; simpl;
    destruct (yield vs (sink p)) as [st' []] eqn:Hy; simpl; try done;
    rewrite IH; simpl; by rewrite ?Hy.
Qed.

Lemma flush_handed src nx vs p :
  ∃ handed,
    yielded (log (flush yield src nx vs true p).2) = yielded (log p) ++ handed
    ∧ handed ++ (flush yield src nx vs true p).1 = vs :: nx.
Proof.
  revert vs p. induction nx as [|b nx IH]; intros vs p;
    rewrite flush_eq; unfold call_yield;
    destruct (yield vs (sink p)) as [st' []] eqn:Hy; simpl.
  - exists [vs]. by rewrite !yielded_app, app_nil_r.
  - exists [vs]. by rewrite yielded_app.
  - destruct (IH b (add_log (EvNext src b true)
                      (Port (buffer p) (offset p) st'
                         (log p ++ [EvYield vs true])))) as (handed & Hh & Hr).
    exists (vs :: handed). rewrite Hh. simpl. rewrite Hr.
    by rewrite !yielded_app, app_nil_r, <- app_assoc.
  - exists [vs]. by rewrite yielded_app.
Qed.

Lemma flush_frame src nx vs k p :
  buffer (flush yield src nx vs k p).2 = buffer p
  ∧ offset (flush yield src nx vs k p).2 = offset p.
Proof.
  revert vs k p. induction nx as [|b nx IH]; intros vs k p;
    rewrite flush_eq; destruct k; try done; unfold call_yield;
    destruct (yield vs (sink p)) as [st' []] eqn:Hy; simpl; try done.
  by destruct (IH b true (add_log (EvNext src b true)
                   (Port (buffer p) (offset p) st'
                      (log p ++ [EvYield vs true])))).
Qed.

End flush.

(** X5: [flush] hands the current batch and then the batches still to
    pull to the consumer, in order, until the consumer refuses one or the
    cursor ends: the batches handed over, followed by those left in the
    cursor, are the current batch and the batches to pull; the buffer is
    not touched.  With [ok] false it does nothing. *)
Theorem flush_hands_over {V St : Type} (yield : list V → St → St * bool)
    (src : nat) (nx : list (list V)) (vs : list V) (p : port V St) :
  sink (flush yield src nx vs true p).2 = (range yield (vs :: nx) (sink p)).1
  ∧ (∃ handed,
       yielded (log (flush yield src nx vs true p).2) = yielded (log p) ++ handed
       ∧ handed ++ (flush yield src nx vs true p).1 = vs :: nx)
  ∧ buffer (flush yield src nx vs true p).2 = buffer p
  ∧ offset (flush yield src nx vs true p).2 = offset p
  ∧ flush yield src nx vs false p = (nx, p).
Proof.
  split; [apply flush_sink|]. split; [apply flush_handed|].
  destruct (flush_frame yield src nx vs true p) as [Hb Ho].
  repeat split; [done|done|apply flush_off].
Qed.

(** X6: on any consumer the pairwise engine behaves as the list of its
    batches: when the two sources return normally, the consumer is handed
    the batches in order up to the first one that it refuses, and the
    function returns normally.  (A panic of a source is outside the model
    of [iter.Pull]; hence the condition on the sources.) *)
Theorem merge2_on_any_consumer {V T St : Type} `{!Zero V, !Tree V T}
    (cmp : V → V → Z) (seq0 seq1 : Seq (list V))
    (yield : list V → St → St * bool) (st : St) :
  returns_normally seq0 → returns_normally seq1 →
  MergeSliceFunc cmp [seq0; seq1] St yield st
    = ((range yield (to_list (MergeSliceFunc cmp [seq0; seq1])) st).1, Done).
Proof.
  intros _ _.
  change (MergeSliceFunc cmp [seq0; seq1]) with (merge2 bufferSize cmp seq0 seq1).
  rewrite (surjective_pairing (merge2 _ _ _ _ St yield st)). f_equal.
  - apply merge2_range.
  - apply merge2_status. unfold bufferSize. lia.
Qed.

Lemma merge2_on_any_consumer_witness :
  MergeSliceFunc Compare [of_list [[1; 3]; [5]]%Z; of_list [[2]; [4]]%Z]
      (list (list Z)) (stop_at 1) []
    = ((range (stop_at 1)
          (to_list (MergeSliceFunc Compare
                      [of_list [[1; 3]; [5]]%Z; of_list [[2]; [4]]%Z])) []).1,
       Done).
Proof.
  apply (merge2_on_any_consumer Compare
           (of_list [[1; 3]; [5]]%Z) (of_list [[2]; [4]]%Z) (stop_at 1) []).
  - intros St yield st. reflexivity.
  - intros St yield st. reflexivity.
Defined.

(** ** A source without batches *)
Section pass_through.
Context {V : Type} `{!Zero V}.
Variable cmp : V → V → Z.

Lemma plan_outer_idle fuel (s0 s1 : source (V:=V)) :
  ok s0 && ok s1 = false → plan_outer cmp fuel s0 s1 = ([], (s0, s1), true).
Proof. intros H. destruct fuel; simpl; by rewrite H. Qed.

Lemma flush_collect_leftover src (s : source (V:=V)) (q : port V (list (list V))) :
  sink (flush collect src (nexts s) (values s) (ok s) q).2 = sink q ++ leftover s.
Proof. rewrite flush_collect_values. unfold leftover. by destruct (ok s). Qed.

Lemma merge2_idle B (seq0 seq1 : Seq (list V)) :
  Pull seq0 = [] ∨ Pull seq1 = [] →
  to_list (merge2 B cmp seq0 seq1) = Pull seq0 ++ Pull seq1.
Proof.
  intros He. unfold to_list at 1, merge2.
  rewrite result_sink, merge2_run_plan. unfold merge2_plan.
  pose proof (leftover_first 0 (Pull seq0)) as Hl0.
  pose proof (leftover_first 1 (Pull seq1)) as Hl1.
  assert (ok (plan_advance 0 (Source (Pull seq0) [] false)).2
          && ok (plan_advance 1 (Source (Pull seq1) [] false)).2 = false) as Hk.
  { destruct He as [-> | ->]; simpl; [done|]. by rewrite andb_false_r. }
  assert (∀ src nx (q : port V (list (list V))),
    ∃ q', interp collect (plan_advance src (Source nx [] false)).1 q = Normal q'
          ∧ sink q' = sink q ∧ offset q' = offset q) as Hi.
  { intros src nx q. unfold plan_advance. destruct nx; simpl; by eexists. }
  destruct (Hi 0 (Pull seq0) (make_port B [])) as (q0 & Hq0 & Hs0 & Ho0).
  destruct (Hi 1 (Pull seq1) q0) as (q1 & Hq1 & Hs1 & Ho1).
  destruct (plan_advance 0 _) as [a0 s0].
  destruct (plan_advance 1 _) as [a1 s1]. simpl in *.
  rewrite plan_outer_idle by done.
  rewrite deferred_stops_sink, interp_app, Hq0. simpl.
  rewrite interp_app, Hq1. simpl.
  unfold finish. rewrite Ho1, Ho0. simpl.
  by rewrite !flush_collect_leftover, Hs1, Hs0, Hl0, Hl1.
Qed.

End pass_through.

(** X7: when one of the two sources has no batch at all, the pairwise
    engine hands over the batches of the other one as they are, in their
    order: it compares nothing and copies nothing into its buffer. *)
Theorem merge2_passes_through {V T : Type} `{!Zero V, !Tree V T}
    (cmp : V → V → Z) (seq : Seq (list V)) :
  to_list (MergeSliceFunc cmp [of_list []; seq]) = to_list seq
  ∧ to_list (MergeSliceFunc cmp [seq; of_list []]) = to_list seq.
Proof.
  change (to_list (merge2 bufferSize cmp (of_list []) seq) = to_list seq
          ∧ to_list (merge2 bufferSize cmp seq (of_list [])) = to_list seq).
  rewrite !merge2_idle by (unfold Pull; rewrite to_list_of_list; auto).
  unfold Pull. rewrite to_list_of_list. by rewrite app_nil_r.
Qed.

(** ** The calls of next *)
Section plan_pulls.
Context {V : Type}.
Variable cmp : V → V → Z.
Implicit Types s : source (V:=V).

Lemma plan_pulls_app src (acts1 acts2 : list (action (V:=V))) :
  plan_pulls src (acts1 ++ acts2) = plan_pulls src acts1 ++ plan_pulls src acts2.
Proof.
  induction acts1 as [|a acts1 IH]; simpl; [done|].
  destruct a; simpl; try done. destruct (_ =? _); simpl; by rewrite IH.
Qed.

Lemma plan_advance_pulls src s :
  ok s = true →
  plan_pulls src (plan_advance src s).1 ++ todo (plan_advance src s).2 = todo s.
Proof.
  unfold plan_advance, todo. intros ->.
  destruct (nexts s); simpl; by rewrite Nat.eqb_refl.
Qed.

Lemma plan_advance_first src (nx : list (list V)) :
  plan_pulls src (plan_advance src (Source nx [] false)).1
    ++ todo (plan_advance src (Source nx [] false)).2 = script nx.
Proof.
  unfold plan_advance, todo. destruct nx; simpl; by rewrite Nat.eqb_refl.
Qed.

Lemma plan_advance_other src src' s :
  src ≠ src' → plan_pulls src' (plan_advance src s).1 = [].
Proof.
  intros Hne. unfold plan_advance.
  destruct (nexts s); simpl; by destruct (Nat.eqb_spec src src').
Qed.

Lemma plan_inner_pulls src fuel (values0 values1 : list V) i0 i1 :
  plan_pulls src (plan_inner cmp fuel values0 values1 i0 i1).1.1 = [].
Proof.
  revert i0 i1. induction fuel as [|fuel IH]; intros i0 i1; simpl.
  - by destruct (values0 !! i0), (values1 !! i1).
  - destruct (values0 !! i0) as [v0|]; [|done].
    destruct (values1 !! i1) as [v1|]; [|done].
    unfold choose.
    destruct (cmp v0 v1 <? 0)%Z; [|destruct (0 <? cmp v0 v1)%Z];
      match goal with |- context [plan_inner cmp fuel values0 values1 ?a ?b] =>
        specialize (IH a b);
        destruct (plan_inner cmp fuel values0 values1 a b) as [[acts ij] en]
      end; done.
Qed.

Lemma plan_round_pulls s0 s1 :
  ok s0 = true → ok s1 = true →
  let '(acts, (s0', s1'), _) := plan_round cmp s0 s1 in
  plan_pulls 0 acts ++ todo s0' = todo s0
  ∧ plan_pulls 1 acts ++ todo s1' = todo s1.
Proof.
  intros Hk0 Hk1. unfold plan_round.
  pose proof (plan_inner_pulls 0 (length (values s0) + length (values s1))
                (values s0) (values s1) 0 0) as Hp0.
  pose proof (plan_inner_pulls 1 (length (values s0) + length (values s1))
                (values s0) (values s1) 0 0) as Hp1.
  destruct (plan_inner _ _ _ _ _ _) as [[acts [j0 j1]] enough]. simpl in *.
  destruct enough; [|by rewrite Hp0, Hp1].
  pose proof (plan_advance_pulls 0 s0 Hk0) as Ha0.
  pose proof (plan_advance_pulls 1 s1 Hk1) as Ha1.
  pose proof (plan_advance_other 0 1 s0) as Ho0.
  pose proof (plan_advance_other 1 0 s1) as Ho1.
  destruct (j0 =? _), (j1 =? _);
    repeat match goal with |- context [plan_advance ?i ?s] =>
      destruct (plan_advance i s) end;
    simpl in *; rewrite !plan_pulls_app, Hp0, Hp1; simpl;
    rewrite ?Ho0, ?Ho1, ?app_nil_r by lia; done.
Qed.

Lemma plan_outer_pulls fuel s0 s1 :
  let '(acts, (s0', s1'), _) := plan_outer cmp fuel s0 s1 in
  plan_pulls 0 acts ++ todo s0' = todo s0
  ∧ plan_pulls 1 acts ++ todo s1' = todo s1.
Proof.
  revert s0 s1. induction fuel as [|fuel IH]; intros s0 s1; simpl.
  - by destruct (ok s0 && ok s1).
  - destruct (ok s0) eqn:Hk0, (ok s1) eqn:Hk1; simpl; try done.
    pose proof (plan_round_pulls s0 s1 Hk0 Hk1) as Hr.
    destruct (plan_round cmp s0 s1) as [[acts [t0 t1]] enough].
    destruct enough; [|done].
    specialize (IH t0 t1).
    destruct (plan_outer cmp fuel t0 t1) as [[acts' [u0 u1]] enough'].
    destruct Hr as [Hr0 Hr1], IH as [IH0 IH1].
    rewrite !plan_pulls_app, <- !app_assoc, IH0, IH1. done.
Qed.

Lemma merge2_plan_pulls (next0 next1 : list (list V)) :
  let '(acts, (s0, s1)) := merge2_plan cmp next0 next1 in
  plan_pulls 0 acts ++ todo s0 = script next0
  ∧ plan_pulls 1 acts ++ todo s1 = script next1
  ∧ ∃ b0 k0 b1 k1 rest, acts = Pulled 0 b0 k0 :: Pulled 1 b1 k1 :: rest.
Proof.
  unfold merge2_plan.
  pose proof (plan_advance_first 0 next0) as H0.
  pose proof (plan_advance_first 1 next1) as H1.
  pose proof (plan_advance_other 0 1 (Source next0 [] false)) as Ho0.
  pose proof (plan_advance_other 1 0 (Source next1 [] false)) as Ho1.
  assert (∀ src (nx : list (list V)), ∃ b k,
    (plan_advance src (Source nx [] false)).1 = [Pulled src b k]) as Hf.
  { intros src nx. unfold plan_advance. destruct nx; simpl; by eexists _, _. }
  destruct (Hf 0 next0) as (b0 & k0 & Hf0). destruct (Hf 1 next1) as (b1 & k1 & Hf1).
  destruct (plan_advance 0 _) as [a0 s0].
  destruct (plan_advance 1 _) as [a1 s1]. simpl in *.
  pose proof (plan_outer_pulls (length next0 + length next1) s0 s1) as H.
  destruct (plan_outer _ _ _ _) as [[acts [t0 t1]] enough].
  destruct H as [Hp0 Hp1].
  rewrite !plan_pulls_app, Ho0, Ho1 by lia. simpl.
  rewrite <- !app_assoc, Hp0, Hp1. subst a0 a1.
  repeat split; [done|done|]. by eexists _, _, _, _, _.
Qed.

End plan_pulls.

Section pulls.
Context {V : Type} `{!Zero V}.
Variable cmp : V → V → Z.
Context {St : Type}.
Variable yield : list V → St → St * bool.
Implicit Types (p : port V St) (l : list (event V)).

Lemma pulls_app src l1 l2 : pulls src (l1 ++ l2) = pulls src l1 ++ pulls src l2.
Proof.
  induction l1 as [|e l1 IH]; simpl; [done|].
  destruct e; simpl; try done. destruct (_ =? _); simpl; by rewrite IH.
Qed.

Lemma call_yield_pulls src batch p :
  pulls src (log (call_yield yield batch p).1) = pulls src (log p).
Proof. by rewrite call_yield_log, pulls_app, app_nil_r. Qed.

Lemma call_yield_grows batch p : log p `prefix_of` log (call_yield yield batch p).1.
Proof. rewrite call_yield_log. by apply prefix_app_r. Qed.

Lemma same_pulls_refl p : same_pulls p p.
Proof. by split. Qed.

Lemma same_pulls_trans p1 p2 p3 :
  same_pulls p1 p2 → same_pulls p2 p3 → same_pulls p1 p3.
Proof.
  intros [Hl1 Hp1] [Hl2 Hp2]. split; [by etrans|].
  intros src. by rewrite Hp2, Hp1.
Qed.

Lemma call_yield_same batch p : same_pulls p (call_yield yield batch p).1.
Proof. split; [apply call_yield_grows|]. intros src. apply call_yield_pulls. Qed.

Lemma reserve_same p : same_pulls p (port_of (reserve yield p)).
Proof.
  unfold reserve, slice_to, yield_or_return.
  destruct (_ <=? _); [|apply same_pulls_refl].
  destruct (_ <=? _); simpl; [|apply same_pulls_refl].
  pose proof (call_yield_same (take (offset p) (buffer p)) p) as H.
  by destruct (call_yield yield _ p) as [p' []].
Qed.

Lemma store_same i v p : same_pulls p (port_of (store i v p)).
Proof. unfold store. destruct (_ <? _); by split. Qed.

Lemma bind_same p (r : outcome V St (port V St)) f :
  same_pulls p (port_of r) →
  (∀ p', same_pulls p' (port_of (f p'))) →
  same_pulls p (port_of (bind r f)).
Proof.
  intros Hr Hf. destruct r as [p'|]; simpl in *; [|done].
  eapply same_pulls_trans; [done|apply Hf].
Qed.

(** One action adds its call of [next], if it is one, to the history. *)
Lemma emit_pulls src a p :
  log p `prefix_of` log (port_of (emit yield a p))
  ∧ pulls src (log (port_of (emit yield a p)))
    = pulls src (log p) ++ plan_pulls src [a].
Proof.
  assert (∀ p' : port V St, same_pulls p p' →
    log p `prefix_of` log p' ∧ pulls src (log p') = pulls src (log p) ++ []) as Hs.
  { intros p' [? Hp]. by rewrite app_nil_r. }
  destruct a as [v|v0 v1|i b k]; simpl.
  - apply Hs. apply bind_same; [apply reserve_same|]. intros p1.
    apply bind_same; [apply store_same|]. by intros p2.
  - apply Hs. apply bind_same; [apply reserve_same|]. intros p1.
    apply bind_same; [apply store_same|]. intros p2.
    apply bind_same; [apply store_same|]. by intros p3.
  - split; [by apply prefix_app_r|]. rewrite pulls_app. simpl.
    by destruct (i =? src).
Qed.

Lemma interp_pulls src acts p :
  log p `prefix_of` log (port_of (interp yield acts p))
  ∧ ∃ made,
      made `prefix_of` plan_pulls src acts
      ∧ pulls src (log (port_of (interp yield acts p))) = pulls src (log p) ++ made
      ∧ (∀ q, interp yield acts p = Normal q → made = plan_pulls src acts).
Proof.
  revert p. induction acts as [|a acts IH]; intros p.
  - simpl. split; [done|]. exists []. by rewrite app_nil_r.
  - destruct (emit_pulls src a p) as [Hg Hp].
    rewrite (plan_pulls_app src [a] acts : plan_pulls src (a :: acts) = _).
    change (interp yield (a :: acts) p)
      with (bind (emit yield a p) (interp yield acts)).
    destruct (emit yield a p) as [p'|h p']; simpl bind; simpl port_of in *.
    + destruct (IH p') as (Hg' & made & Hpre & Hm & Hn).
      split; [by etrans|].
      exists (plan_pulls src [a] ++ made). split; [by apply prefix_app|].
      rewrite Hm, Hp, <- app_assoc. split; [done|].
      intros q Hq. by rewrite (Hn q Hq).
    + split; [done|]. exists (plan_pulls src [a]).
      split; [by apply prefix_app_r|]. by split.
Qed.

Lemma script_cons (b : list V) nx : script (b :: nx) = (b, true) :: script nx.
Proof. done. Qed.

(** [flush] calls [next] on its own cursor only, and not again after the
    cursor ended or the consumer refused. *)
Lemma flush_pulls src' src nx vs k p :
  log p `prefix_of` log (flush yield src nx vs k p).2
  ∧ ∃ made,
      made `prefix_of` (if (src =? src') && k then script nx else [])
      ∧ pulls src' (log (flush yield src nx vs k p).2) = pulls src' (log p) ++ made.
Proof.
  revert vs k p. induction nx as [|b nx IH]; intros vs k p;
    rewrite flush_eq; (destruct k;
      [|split; [done|]; exists []; rewrite andb_false_r, app_nil_r; by split]);
    pose proof (call_yield_same vs p) as [Hg Hp]; specialize (Hp src');
    destruct (call_yield yield vs p) as [p' []]; simpl in *;
    try (split; [done|]; exists []; rewrite Hp, app_nil_r;
         split; [apply prefix_nil|done]).
  - split; [etrans; [done|by apply prefix_app_r]|].
    rewrite pulls_app, Hp. simpl.
    destruct (src =? src'); simpl; [by eexists|].
    exists []. by split.
  - destruct (IH b true (add_log (EvNext src b true) p')) as (Hg' & made & Hpre & Hm).
    split; [etrans; [done|]; etrans; [|done]; by apply prefix_app_r|].
    rewrite Hm. simpl. rewrite pulls_app, Hp. simpl.
    rewrite andb_true_r in *. rewrite script_cons.
    destruct (src =? src'); simpl.
    + exists ((b, true) :: made). rewrite <- app_assoc. split; [|done].
      by apply prefix_cons.
    + exists made. by rewrite app_nil_r.
Qed.

Lemma finish_pulls s0 s1 p :
  log p `prefix_of` log (port_of (finish yield s0 s1 p))
  ∧ (∃ made, made `prefix_of` todo s0
       ∧ pulls 0 (log (port_of (finish yield s0 s1 p))) = pulls 0 (log p) ++ made)
  ∧ (∃ made, made `prefix_of` todo s1
       ∧ pulls 1 (log (port_of (finish yield s0 s1 p))) = pulls 1 (log p) ++ made).
Proof.
  assert (∀ p1, same_pulls p p1 →
    log p `prefix_of`
      log (flush yield 1 (nexts s1) (values s1) (ok s1)
             (flush yield 0 (nexts s0) (values s0) (ok s0) p1).2).2
    ∧ (∃ made, made `prefix_of` todo s0
         ∧ pulls 0 (log (flush yield 1 (nexts s1) (values s1) (ok s1)
                           (flush yield 0 (nexts s0) (values s0) (ok s0) p1).2).2)
           = pulls 0 (log p) ++ made)
    ∧ (∃ made, made `prefix_of` todo s1
         ∧ pulls 1 (log (flush yield 1 (nexts s1) (values s1) (ok s1)
                           (flush yield 0 (nexts s0) (values s0) (ok s0) p1).2).2)
           = pulls 1 (log p) ++ made)) as Hfl.
  { intros p1 [Hg Hp].
    set (p2 := (flush yield 0 (nexts s0) (values s0) (ok s0) p1).2).
    destruct (flush_pulls 0 0 (nexts s0) (values s0) (ok s0) p1) as (Hg0 & m00 & Hpre00 & Hm00).
    destruct (flush_pulls 1 0 (nexts s0) (values s0) (ok s0) p1) as (_ & m01 & Hpre01 & Hm01).
    destruct (flush_pulls 0 1 (nexts s1) (values s1) (ok s1) p2) as (Hg1 & m10 & Hpre10 & Hm10).
    destruct (flush_pulls 1 1 (nexts s1) (values s1) (ok s1) p2) as (_ & m11 & Hpre11 & Hm11).
    fold p2 in Hm00, Hm01, Hg0. simpl in *.
    apply prefix_nil_inv in Hpre01, Hpre10. subst m01 m10.
    split; [by repeat (etrans; [done|])|]. split.
    - exists m00. rewrite Hm10, Hm00, Hp, app_nil_r. by split.
    - exists m11. rewrite Hm11, Hm01, Hp, app_nil_r. by split. }
  unfold finish, slice_to, yield_or_return.
  assert (∀ (t l : list (list V * bool)),
            ∃ made, made `prefix_of` t ∧ l = l ++ made) as Hnone.
  { intros t l. exists []. rewrite app_nil_r. split; [apply prefix_nil|done]. }
  destruct (0 <? offset p); simpl; [|apply Hfl, same_pulls_refl].
  destruct (_ <=? _); simpl.
  2:{ split; [done|]. split; apply Hnone. }
  pose proof (call_yield_same (take (offset p) (buffer p)) p) as Hs.
  destruct (call_yield yield _ p) as [p' []]; simpl in *; [by apply Hfl|].
  destruct Hs as [Hg Hp]. split; [done|]. rewrite !Hp.
  split; apply Hnone.
Qed.

End pulls.

(** X8: the pairwise engine reads each of its sources in order, batch by
    batch, skipping none, and does not call [next] again on a cursor
    that has reported its end: on any consumer and at any capacity, the
    answers of a cursor in the history are a beginning of what the cursor
    has to give.  The first two things that the engine does are to pull
    one batch from the first source and one from the second. *)
Theorem merge2_pulls_in_order {V St : Type} `{!Zero V} (B : nat)
    (cmp : V → V → Z) (yield : list V → St → St * bool)
    (seq0 seq1 : Seq (list V)) (st : St) :
  pulls 0 (log (port_of (merge2_run B cmp yield seq0 seq1 st)))
    `prefix_of` script (to_list seq0)
  ∧ pulls 1 (log (port_of (merge2_run B cmp yield seq0 seq1 st)))
    `prefix_of` script (to_list seq1)
  ∧ ∃ b0 k0 b1 k1 rest,
      log (port_of (merge2_run B cmp yield seq0 seq1 st))
        = EvNext 0 b0 k0 :: EvNext 1 b1 k1 :: rest.
Proof.
  rewrite merge2_run_plan.
  pose proof (merge2_plan_pulls cmp (Pull seq0) (Pull seq1)) as Hplan.
  destruct (merge2_plan _ _ _) as [acts [s0 s1]].
  destruct Hplan as (Hp0 & Hp1 & b0 & k0 & b1 & k1 & rest & Hacts).
  unfold Pull in *. rewrite <- Hp0, <- Hp1.
  assert (∀ r : outcome V St (port V St),
    log (port_of (deferred_stops r)) = log (port_of r) ++ [EvStop 1; EvStop 0]) as Hd.
  { intros [p|h p]; simpl; by rewrite <- app_assoc. }
  rewrite Hd, !pulls_app. simpl. rewrite !app_nil_r.
  assert (∀ (src : bool) s, (if src then s = s0 else s = s1) →
    ∃ made, pulls (if src then 0 else 1)
              (log (port_of (bind (interp yield acts (make_port B st))
                               (finish yield s0 s1))))
            = made
            ∧ made `prefix_of` plan_pulls (if src then 0 else 1) acts ++ todo s)
    as Hall.
  { intros src s Hs.
    destruct (interp_pulls yield (if src then 0 else 1) acts (make_port B st))
      as (_ & made & Hpre & Hm & Hn).
    destruct (interp yield acts (make_port B st)) as [q|h q]; simpl in *.
    - destruct (finish_pulls yield s0 s1 q) as (_ & (m0 & Hpre0 & Hm0) & (m1 & Hpre1 & Hm1)).
      rewrite (Hn q eq_refl) in *. destruct src; subst s; eexists; split; try done.
      + rewrite Hm. by apply prefix_app.
      + rewrite Hm. by apply prefix_app.
    - eexists. split; [done|]. rewrite ?Hm. simpl. by apply prefix_app_r. }
  destruct (Hall true s0 eq_refl) as (m0 & -> & Hm0).
  split; [done|].
  destruct (Hall false s1 eq_refl) as (m1 & Hq1 & Hm1).
  split; [by rewrite Hq1|].
  subst acts. simpl.
  match goal with |- context [interp yield rest ?p2] =>
    pose proof (interp_pulls yield 0 rest p2) as [Hg _];
    destruct (interp yield rest p2) as [q|h q]; simpl in *
  end.
  - destruct (finish_pulls yield s0 s1 q) as ([k Hk] & _).
    destruct Hg as [k' Hk']. rewrite Hk, Hk'. simpl. by eexists _, _, _, _, _.
  - destruct Hg as [k' Hk']. rewrite Hk'. simpl. by eexists _, _, _, _, _.
Qed.

(** ** The batches of merge2 *)
Section merge2_batches.
Context {V : Type} `{!Zero V}.
Variable cmp : V → V → Z.
Implicit Types q : port V (list (list V)).

Lemma merge2_plan_leftover (next0 next1 : list (list V)) :
  let '(_, (s0, s1)) := merge2_plan cmp next0 next1 in
  leftover s0 `suffix_of` next0 ∧ leftover s1 `suffix_of` next1.
Proof.
  unfold merge2_plan.
  pose proof (leftover_first 0 next0) as Hl0.
  pose proof (leftover_first 1 next1) as Hl1.
  destruct (plan_advance 0 _) as [a0 s0].
  destruct (plan_advance 1 _) as [a1 s1]. simpl in *.
  pose proof (plan_outer_values cmp (length next0 + length next1) s0 s1) as H.
  destruct (plan_outer _ _ _ _) as [[acts [t0 t1]] enough].
  destruct H as (_ & _ & _ & H0 & H1). by rewrite Hl0, Hl1 in *.
Qed.

Lemma reserve_collect_batches q :
  roomy q →
  ∃ q' news,
    reserve collect q = Normal q'
    ∧ offset q' + 1 < length (buffer q')
    ∧ length (buffer q') = length (buffer q)
    ∧ sink q' = sink q ++ news
    ∧ Forall (λ b, 0 < length b ≤ length (buffer q)) news.
Proof.
  intros [HB Ho]. unfold reserve, slice_to, yield_or_return.
  destruct (Nat.leb_spec (length (buffer q)) (offset q + 1)).
  - destruct (Nat.leb_spec (offset q) (length (buffer q))); [|lia]. simpl.
    eexists _, [_]. split; [done|]. simpl. repeat split; try done; try lia.
    constructor; [|constructor]. rewrite length_take_le by lia. lia.
  - exists q, []. rewrite app_nil_r. repeat split; try done; try lia.
Qed.

Lemma emit_collect_batches a q :
  roomy q →
  ∃ q' news,
    emit collect a q = Normal q' ∧ roomy q'
    ∧ length (buffer q') = length (buffer q)
    ∧ sink q' = sink q ++ news
    ∧ Forall (λ b, 0 < length b ≤ length (buffer q)) news.
Proof.
  intros Hq. pose proof Hq as [HB Ho].
  destruct (reserve_collect_batches q Hq) as (q1 & news & Hr & Ho1 & Hl1 & Hs1 & Hn).
  destruct a as [v|v0 v1|src b k]; simpl.
  - rewrite Hr. simpl. unfold store.
    destruct (Nat.ltb_spec (offset q1) (length (buffer q1))); [|lia]. simpl.
    eexists _, news. split; [done|]. unfold roomy. simpl.
    rewrite length_insert. repeat split; try done; lia.
  - rewrite Hr. simpl. unfold store.
    destruct (Nat.ltb_spec (offset q1 + 0) (length (buffer q1))); [|lia]. simpl.
    rewrite length_insert.
    destruct (Nat.ltb_spec (offset q1 + 1) (length (buffer q1))); [|lia]. simpl.
    eexists _, news. split; [done|]. unfold roomy. simpl.
    rewrite !length_insert. repeat split; try done; lia.
  - eexists _, []. split; [done|]. simpl. rewrite app_nil_r.
    do 3 (split; [done|]). constructor.
Qed.

Lemma interp_collect_batches acts q :
  roomy q →
  ∃ q' news,
    interp collect acts q = Normal q' ∧ roomy q'
    ∧ length (buffer q') = length (buffer q)
    ∧ sink q' = sink q ++ news
    ∧ Forall (λ b, 0 < length b ≤ length (buffer q)) news.
Proof.
  revert q. induction acts as [|a acts IH]; intros q Hq; simpl.
  - exists q, []. rewrite app_nil_r. do 4 (split; [done|]). constructor.
  - destruct (emit_collect_batches a q Hq) as (q1 & n1 & -> & Hq1 & Hl1 & Hs1 & Hn1).
    simpl. destruct (IH q1 Hq1) as (q2 & n2 & -> & Hq2 & Hl2 & Hs2 & Hn2).
    exists q2, (n1 ++ n2). rewrite Hs2, Hs1, <- app_assoc.
    do 2 (split; [done|]). split; [congruence|]. split; [done|].
    apply Forall_app. split; [done|]. by rewrite <- Hl1.
Qed.

Lemma finish_collect_batches s0 s1 q :
  roomy q →
  ∃ q' last,
    finish collect s0 s1 q = Normal q'
    ∧ sink q' = sink q ++ last ++ leftover s0 ++ leftover s1
    ∧ Forall (λ b, 0 < length b ≤ length (buffer q)) last.
Proof.
  intros [HB Ho]. unfold finish, slice_to, yield_or_return.
  destruct (Nat.ltb_spec 0 (offset q)).
  - destruct (Nat.leb_spec (offset q) (length (buffer q))); [|lia]. simpl.
    eexists _, [_]. split; [done|]. rewrite !flush_collect_leftover. simpl.
    split; [by rewrite <- !app_assoc|].
    constructor; [|constructor]. rewrite length_take_le by lia. lia.
  - simpl. eexists _, []. split; [done|]. rewrite !flush_collect_leftover.
    split; [by rewrite <- !app_assoc|constructor].
Qed.

Lemma merge2_batches B (seq0 seq1 : Seq (list V)) :
  2 ≤ B →
  ∃ cut passed,
    to_list (merge2 B cmp seq0 seq1) = cut ++ passed
    ∧ Forall (λ b, 0 < length b ≤ B) cut
    ∧ (passed `suffix_of` to_list seq0 ∨ passed `suffix_of` to_list seq1).
Proof.
  intros HB. unfold to_list at 1, merge2.
  rewrite result_sink, merge2_run_plan.
  pose proof (merge2_plan_done cmp (Pull seq0) (Pull seq1)) as Hk.
  pose proof (merge2_plan_leftover (Pull seq0) (Pull seq1)) as Hl.
  destruct (merge2_plan _ _ _) as [acts [s0 s1]]. destruct Hl as [Hl0 Hl1].
  rewrite deferred_stops_sink.
  assert (roomy (make_port B ([] : list (list V)))) as Hq.
  { unfold roomy, make_port. simpl. rewrite length_replicate. lia. }
  destruct (interp_collect_batches acts _ Hq) as (q1 & n1 & -> & Hq1 & Hb1 & Hs1 & Hn1).
  simpl in *. rewrite length_replicate in *.
  destruct (finish_collect_batches s0 s1 q1 Hq1) as (q2 & n2 & -> & Hs2 & Hn2).
  simpl. rewrite Hb1 in Hn2.
  exists (n1 ++ n2), (leftover s0 ++ leftover s1).
  rewrite Hs2, Hs1, <- !app_assoc. split; [done|].
  split; [by apply Forall_app|].
  unfold leftover in *. destruct (ok s0); simpl in Hk.
  - rewrite Hk in *. simpl. rewrite app_nil_r. by left.
  - simpl. by right.
Qed.

End merge2_batches.

(** X9: the batches that the pairwise engine yields are batches cut from
    its buffer, each with at least one value and at most [bufferSize],
    and after them the last batches of one source, handed over as they
    are: the engine itself yields no empty batch. *)
Theorem merge2_batch_shapes {V T : Type} `{!Zero V, !Tree V T}
    (cmp : V → V → Z) (seq0 seq1 : Seq (list V)) :
  ∃ cut passed,
    to_list (MergeSliceFunc cmp [seq0; seq1]) = cut ++ passed
    ∧ Forall (λ b, 0 < length b ≤ bufferSize) cut
    ∧ (passed `suffix_of` to_list seq0 ∨ passed `suffix_of` to_list seq1).
Proof.
  apply (merge2_batches cmp bufferSize seq0 seq1). unfold bufferSize. lia.
Qed.

(** ** merge and the stream of its tree *)
Section merge_stream.
Context {V T : Type} `{!Zero V, !Tree V T}.
Variable cmp : V → V → Z.
Context {St : Type}.
Variable yield : list V → St → St * bool.
Implicit Types (p : port V St) (t : T).

Lemma merge_loop_stream fuel t p :
  offset p < length (buffer p) →
  match merge_loop cmp yield fuel t p with
  | (t', Normal p') =>
      taken p' = taken p ++ tree_values cmp fuel t
      ∧ t' = tree_after cmp (S (length (tree_values cmp fuel t))) t
      ∧ tree_ends cmp fuel t = true
  | (t', Halt Returned p') =>
      ∃ k, k ≤ length (tree_values cmp fuel t)
           ∧ concat (yielded (log p')) = taken p ++ take k (tree_values cmp fuel t)
           ∧ t' = tree_after cmp k t
  | (t', Halt Fuel p') =>
      taken p' = taken p ++ tree_values cmp fuel t
      ∧ tree_ends cmp fuel t = false
  | (_, Halt Fault _) => False
  end.
Proof.
  revert t p. induction fuel as [|fuel IH]; intros t p Ho; simpl.
  - by rewrite app_nil_r.
  - destruct (tree_next cmp t) as [[v|] t1] eqn:Ht; simpl.
    2:{ by rewrite app_nil_r. }
    unfold store. destruct (Nat.ltb_spec (offset p) (length (buffer p))); [|lia].
    simpl. rewrite length_insert.
    assert (∀ p1 : port V St,
      taken p1 = taken p ++ [v] → offset p1 < length (buffer p1) →
      match merge_loop cmp yield fuel t1 p1 with
      | (t', Normal p') =>
          taken p' = taken p ++ v :: tree_values cmp fuel t1
          ∧ t' = tree_after cmp (S (length (tree_values cmp fuel t1))) t1
          ∧ tree_ends cmp fuel t1 = true
      | (t', Halt Returned p') =>
          ∃ k, k ≤ S (length (tree_values cmp fuel t1))
               ∧ concat (yielded (log p'))
                 = taken p ++ take k (v :: tree_values cmp fuel t1)
               ∧ t' = tree_after cmp k t
      | (t', Halt Fuel p') =>
          taken p' = taken p ++ v :: tree_values cmp fuel t1
          ∧ tree_ends cmp fuel t1 = false
      | (_, Halt Fault _) => False
      end) as Hrec.
    { intros p1 Hp1 Ho1. specialize (IH t1 p1 Ho1).
      destruct (merge_loop cmp yield fuel t1 p1) as [t' [p'|[] p']];
        rewrite ?Hp1, <- ?app_assoc in IH; simpl in IH; rewrite ?Ht; try done.
      destruct IH as (k & Hk & Hc & Ht'). exists (S k). simpl.
      rewrite Ht. simpl. rewrite <- app_assoc in Hc. split; [lia|]. by split. }
    destruct (Nat.eqb_spec (offset p + 1) (length (buffer p))) as [Heq|Hne].
    + unfold yield_or_return, call_yield. simpl.
      destruct (yield _ (sink p)) as [st' more]. 
      assert (concat (yielded (log p ++ [EvYield (<[offset p:=v]> (buffer p)) more]))
              = taken p ++ [v]) as Hc.
      { rewrite yielded_app, concat_app. simpl. rewrite app_nil_r.
        unfold taken. rewrite <- app_assoc. f_equal.
        rewrite <- take_store by lia. rewrite take_ge; [done|].
        rewrite length_insert. lia. }
      destruct more.
      * apply Hrec; simpl; [|rewrite length_insert; lia].
        unfold taken at 1. simpl.
        by rewrite app_nil_r.
      * exists 1. simpl. rewrite Ht. simpl. split; [lia|]. by split.
    + apply Hrec; simpl; [|rewrite length_insert; lia].
      unfold taken. simpl. rewrite Nat.add_1_r, take_store by lia.
      by rewrite app_assoc.
Qed.

End merge_stream.

Section merge_run_stream.
Context {V T : Type} `{!Zero V, !Tree V T}.
Variable cmp : V → V → Z.
Context {St : Type}.
Variable yield : list V → St → St * bool.

Lemma concat_full_batches (B : nat) (l : list (list V)) :
  Forall (λ b, length b = B) l → length (concat l) = B * length l.
Proof.
  induction 1 as [|b l Hb _ IH]; simpl; [lia|].
  rewrite length_app, IH, Hb. lia.
Qed.

Lemma merge_run_stream B fuel seqs (st : St) :
  0 < B →
  let t0 := makeTree seqs in
  let r := merge_run B cmp yield fuel seqs st in
  match r.2 with
  | Normal p =>
      concat (yielded (log p)) = tree_values cmp fuel t0
      ∧ tree_ends cmp fuel t0 = true
      ∧ r.1 = tree_stop (tree_after cmp (S (length (tree_values cmp fuel t0))) t0)
  | Halt Returned p =>
      let n := B * length (yielded (log p)) in
      concat (yielded (log p)) = take n (tree_values cmp fuel t0)
      ∧ n ≤ length (tree_values cmp fuel t0)
      ∧ r.1 = tree_stop (tree_after cmp n t0)
  | Halt Fuel p =>
      concat (yielded (log p)) `prefix_of` tree_values cmp fuel t0
      ∧ tree_ends cmp fuel t0 = false
  | Halt Fault _ => False
  end.
Proof.
  intros HB t0 r. subst r. unfold merge_run. fold t0.
  pose proof (make_port_full B st HB) as Hfull.
  pose proof (merge_loop_stream cmp yield fuel t0 (make_port B st) (proj1 Hfull))
    as Hs.
  pose proof (merge_loop_safe cmp yield fuel t0 (make_port B st) Hfull) as Hb.
  destruct (merge_loop cmp yield fuel t0 (make_port B st)) as [t [p|[] p]];
    simpl in *; rewrite ?length_replicate in *; try done.
  - destruct Hs as (Hv & Ht & He). destruct Hb as [[Ho _] Hl].
    unfold taken in Hv. simpl in Hv.
    unfold slice_to. destruct (Nat.ltb_spec 0 (offset p)).
    + destruct (Nat.leb_spec (offset p) (length (buffer p))); [|lia]. simpl.
      rewrite call_yield_log, yielded_app, concat_app. simpl.
      rewrite app_nil_r. by subst t.
    + simpl. replace (offset p) with 0 in Hv by lia.
      rewrite take_0, app_nil_r in Hv. by subst t.
  - destruct Hs as (k & Hk & Hc & Ht). destruct Hb as (_ & _ & Hy).
    unfold taken in Hc. simpl in Hc.
    pose proof (concat_full_batches B _ Hy) as Hlen.
    rewrite Hc, length_take_le in Hlen by done. rewrite <- Hlen. by subst t.
  - destruct Hs as [Hv He]. unfold taken in Hv. simpl in Hv.
    split; [|done]. rewrite <- Hv. by apply prefix_app_r.
Qed.

End merge_run_stream.

(** X10: the function that [merge] returns hands to its consumer the values
    of its tree, in the order in which [tree.next] gives them, none left
    out, none twice and none of its own: all of them when the loop ends
    because the tree is empty, and the first ones, as many as fit the
    batches handed over, when the consumer refuses a batch.  This holds for
    every tree, every consumer and every bound on the turns of the loop. *)
Theorem merge_hands_over_tree_values {V T : Type} `{!Zero V, !Tree V T}
    (cmp : V → V → Z) {St : Type} (yield : list V → St → St * bool)
    (fuel : nat) (seqs : list (Seq (list V))) (st : St) :
  let stream := tree_values cmp fuel (makeTree seqs) in
  match (merge_run bufferSize cmp yield fuel seqs st).2 with
  | Normal p => concat (yielded (log p)) = stream
  | Halt Returned p =>
      concat (yielded (log p))
      = take (bufferSize * length (yielded (log p))) stream
  | Halt _ p => concat (yielded (log p)) `prefix_of` stream
  end.
Proof.
  assert (0 < bufferSize) as HB by (unfold bufferSize; lia).
  pose proof (merge_run_stream cmp yield bufferSize fuel seqs st HB) as H.
  simpl in *.
  destruct (merge_run bufferSize cmp yield fuel seqs st).2 as [p|[] p];
    try done; [by destruct H | by destruct H | by destruct H].
Qed.


(** ** merge on the consumer that collects *)
Section merge_collect.
Context {V T : Type} `{!Zero V, !Tree V T}.
Variable cmp : V → V → Z.

Lemma merge_loop_collect fuel (t : T) (q : port V (list (list V))) :
  sink q = yielded (log q) →
  match (merge_loop cmp collect fuel t q).2 with
  | Halt Returned _ => False
  | r => sink (port_of r) = yielded (log (port_of r))
  end.
Proof.
  revert t q. induction fuel as [|fuel IH]; intros t q Hq; simpl; [done|].
  destruct (tree_next cmp t) as [[v|] t1]; simpl; [|done].
  unfold store. destruct (offset q <? length (buffer q)); simpl; [|done].
  destruct (_ =? _); simpl; apply IH; simpl; [|done].
  by rewrite yielded_app, Hq.
Qed.

Lemma merge_collect B (seqs : list (Seq (list V))) :
  0 < B →
  tree_ends cmp (merge_fuel seqs) (makeTree seqs) = true →
  concat (to_list (merge B cmp seqs))
    = tree_values cmp (merge_fuel seqs) (makeTree seqs)
  ∧ status_of (merge B cmp seqs) = Done.
Proof.
  intros HB He. unfold to_list, status_of, merge.
  pose proof (merge_run_stream cmp collect B (merge_fuel seqs) seqs [] HB) as Hs.
  simpl in Hs. rewrite result_sink.
  assert (match (merge_run B cmp collect (merge_fuel seqs) seqs []).2 with
          | Halt Returned _ => False
          | r => sink (port_of r) = yielded (log (port_of r))
          end) as Hc.
  { unfold merge_run.
    pose proof (merge_loop_collect (merge_fuel seqs) (makeTree seqs)
                  (make_port B []) eq_refl) as Hl.
    destruct (merge_loop _ _ _ _ _) as [t [p|[] p]]; simpl in *; try done.
    unfold slice_to. destruct (0 <? offset p); simpl; [|done].
    destruct (offset p <=? length (buffer p)); simpl; [|done].
    by rewrite yielded_app, Hl. }
  destruct (merge_run B cmp collect (merge_fuel seqs) seqs []).2 as [p|[] p];
    simpl in *; try done.
  - destruct Hs as (Hv & _ & _). by rewrite Hc.
  - destruct Hs as [_ Hs]. congruence.
Qed.

End merge_collect.

(** X12: on three or more sequences [MergeSliceFunc] is the function of
    [merge], and when its tree comes to its end the batches that it yields
    hold the values of the tree, in the order in which [tree.next] gives
    them, each once, and the iteration ends without a panic.  (The
    hypothesis bounds the calls of [tree.next] by the number of values of
    the sources and one more.) *)
Theorem merge_slices_yield_tree_values {V T : Type} `{!Zero V, !Tree V T}
    (cmp : V → V → Z) (seq0 seq1 seq2 : Seq (list V))
    (rest : list (Seq (list V))) :
  let seqs := seq0 :: seq1 :: seq2 :: rest in
  tree_ends cmp (merge_fuel seqs) (makeTree seqs) = true →
  concat (to_list (MergeSliceFunc cmp seqs))
    = tree_values cmp (merge_fuel seqs) (makeTree seqs)
  ∧ status_of (MergeSliceFunc cmp seqs) = Done.
Proof.
  intros seqs He. apply (merge_collect cmp bufferSize seqs); [|done].
  unfold bufferSize. lia.
Qed.

Lemma merge_slices_yield_tree_values_witness :
  concat (to_list (MergeSliceFunc Compare
            [of_list [[1; 4]; [7]]%Z; of_list [[2; 5]]%Z; of_list [[3]; [6]]%Z]))
    = tree_values Compare
        (merge_fuel [of_list [[1; 4]; [7]]%Z; of_list [[2; 5]]%Z; of_list [[3]; [6]]%Z])
        (makeTree [of_list [[1; 4]; [7]]%Z; of_list [[2; 5]]%Z; of_list [[3]; [6]]%Z])
  ∧ status_of (MergeSliceFunc Compare
       [of_list [[1; 4]; [7]]%Z; of_list [[2; 5]]%Z; of_list [[3]; [6]]%Z]) = Done.
Proof.
  apply (merge_slices_yield_tree_values Compare
           (of_list [[1; 4]; [7]]%Z) (of_list [[2; 5]]%Z) (of_list [[3]; [6]]%Z) []).
  vm_compute. reflexivity.
Defined.

(** ** merge2 on batches of one value *)
Section sorted.
Context {V : Type} `{!Zero V}.
Variable cmp : V → V → Z.
Hypothesis Htrans : ∀ a b c, (cmp a b ≤ 0)%Z → (cmp b c ≤ 0)%Z → (cmp a c ≤ 0)%Z.
Hypothesis Hanti : ∀ a b, (0 ≤ cmp a b)%Z → (cmp b a ≤ 0)%Z.

Lemma below_all a b l : not_after cmp a b → Forall (not_after cmp b) l → Forall (not_after cmp a) l.
Proof using Htrans.
  intros Hab Hl. eapply Forall_impl; [done|]. intros c Hc.
  unfold not_after in *. by eapply Htrans.
Qed.

Lemma plan_round_sorted (s0 s1 : source (V:=V)) :
  ok s0 = true → ok s1 = true → small s0 → small s1 →
  StronglySorted (not_after cmp) (content s0) → StronglySorted (not_after cmp) (content s1) →
  let '(acts, (s0', s1'), _) := plan_round cmp s0 s1 in
  StronglySorted (not_after cmp) (plan_values acts ++ content s0')
  ∧ StronglySorted (not_after cmp) (plan_values acts ++ content s1').
Proof using Htrans Hanti.
  destruct s0 as [nx0 vs0 k0], s1 as [nx1 vs1 k1]. simpl.
  intros -> -> H0 H1.
  apply Forall_cons in H0 as [H0 _]. apply Forall_cons in H1 as [H1 _].
  simpl in *.
  pose proof (plan_advance_content 0 (Source nx0 vs0 true) eq_refl) as Hc0.
  pose proof (plan_advance_content 1 (Source nx1 vs1 true) eq_refl) as Hc1.
  pose proof (plan_advance_values 0 (Source nx0 vs0 true)) as Ha0.
  pose proof (plan_advance_values 1 (Source nx1 vs1 true)) as Ha1.
  unfold plan_round. simpl.
  destruct (plan_advance 0 _) as [a0 t0].
  destruct (plan_advance 1 _) as [a1 t1]. simpl in *.
  rewrite Hc0, Hc1. intros S0 S1.
  destruct vs0 as [|v0 [|]]; simpl in *; try lia;
    destruct vs1 as [|v1 [|]]; simpl in *; try lia;
    rewrite ?plan_values_app, ?Ha0, ?Ha1, ?Hc0, ?Hc1; simpl; try done.
  unfold choose.
  destruct (Z.ltb_spec (cmp v0 v1) 0) as [Hlt|Hge]; simpl;
    [|destruct (Z.ltb_spec 0 (cmp v0 v1)) as [Hgt|Hle]; simpl];
    repeat match goal with
    | |- context [concat (list_fmap _ _ action_values ?x)] =>
        change (concat (list_fmap _ _ action_values x)) with (plan_values x)
    end;
    rewrite ?app_nil_r, ?plan_values_app, ?Ha0, ?Ha1, ?Hc0, ?Hc1; simpl.
  all: apply StronglySorted_cons in S0 as [F0 S0].
  all: apply StronglySorted_cons in S1 as [F1 S1].
  - assert (not_after cmp v0 v1) as Hr by (unfold not_after; lia).
    split; [by constructor|].
    repeat (constructor; try done). by eapply below_all.
  - assert (not_after cmp v1 v0) as Hr by (apply Hanti; lia).
    split; [|by constructor].
    repeat (constructor; try done). by eapply below_all.
  - assert (not_after cmp v0 v1) as Hr by (unfold not_after; lia).
    assert (not_after cmp v1 v0) as Hr' by (apply Hanti; lia).
    split; repeat (constructor; try done); by eapply below_all.
Qed.

Lemma plan_outer_sorted fuel (s0 s1 : source (V:=V)) :
  small s0 → small s1 →
  StronglySorted (not_after cmp) (content s0) → StronglySorted (not_after cmp) (content s1) →
  let '(acts, (s0', s1'), _) := plan_outer cmp fuel s0 s1 in
  StronglySorted (not_after cmp) (plan_values acts ++ content s0')
  ∧ StronglySorted (not_after cmp) (plan_values acts ++ content s1').
Proof using Htrans Hanti.
  revert s0 s1. induction fuel as [|fuel IH]; intros s0 s1 Hm0 Hm1 S0 S1; simpl.
  - by destruct (ok s0 && ok s1).
  - destruct (ok s0) eqn:Hk0, (ok s1) eqn:Hk1; simpl; try done.
    pose proof (plan_round_sorted s0 s1 Hk0 Hk1 Hm0 Hm1 S0 S1) as Hs.
    pose proof (plan_round_values cmp s0 s1 Hk0 Hk1) as Hr.
    destruct (plan_round cmp s0 s1) as [[acts [t0 t1]] enough].
    destruct Hr as (_ & _ & _ & Hsm0 & Hsm1 & _ & _).
    destruct Hs as [T0 T1].
    destruct enough; [|done].
    specialize (IH t0 t1 (Hsm0 Hm0) (Hsm1 Hm1)
                  (StronglySorted_app_1_r _ _ _ T0)
                  (StronglySorted_app_1_r _ _ _ T1)).
    pose proof (plan_outer_values cmp fuel t0 t1) as Hv.
    destruct (plan_outer cmp fuel t0 t1) as [[acts' [u0 u1]] enough'].
    destruct IH as [U0 U1].
    destruct Hv as (_ & _ & (junk & Hp & Hz) & _ & _).
    rewrite (Hz (Hsm0 Hm0) (Hsm1 Hm1)), app_nil_r in Hp.
    assert (∀ x y, x ∈ plan_values acts →
                   y ∈ plan_values acts' ++ content u0 ++ content u1 →
                   not_after cmp x y) as Hlow.
    { intros x y Hx Hy. rewrite Hp in Hy. apply elem_of_app in Hy as [Hy|Hy].
      - by apply (StronglySorted_app_1_elem_of _ _ _ _ _ T0).
      - by apply (StronglySorted_app_1_elem_of _ _ _ _ _ T1). }
    rewrite plan_values_app, <- !app_assoc.
    split; (apply StronglySorted_app_2;
            [|by eapply StronglySorted_app_1_l|done]);
      intros x y Hx Hy; apply Hlow; [done| |done|];
      rewrite !elem_of_app in *; tauto.
Qed.

Lemma merge2_values_sorted (next0 next1 : list (list V)) :
  Forall (λ b, length b ≤ 1) next0 → Forall (λ b, length b ≤ 1) next1 →
  StronglySorted (not_after cmp) (concat next0) → StronglySorted (not_after cmp) (concat next1) →
  StronglySorted (not_after cmp) (merge2_values cmp next0 next1).
Proof using Htrans Hanti.
  intros Hm0 Hm1 S0 S1.
  pose proof (merge2_plan_done cmp next0 next1) as Hd.
  unfold merge2_values. unfold merge2_plan in *.
  pose proof (leftover_first 0 next0) as Hl0.
  pose proof (leftover_first 1 next1) as Hl1.
  pose proof (plan_advance_values 0 (Source next0 [] false)) as Ha0.
  pose proof (plan_advance_values 1 (Source next1 [] false)) as Ha1.
  destruct (plan_advance 0 _) as [a0 s0].
  destruct (plan_advance 1 _) as [a1 s1]. simpl in *.
  pose proof (plan_outer_sorted (length next0 + length next1) s0 s1) as H.
  unfold small, content in H. rewrite Hl0, Hl1 in H.
  specialize (H Hm0 Hm1 S0 S1).
  destruct (plan_outer _ _ _ _) as [[acts [t0 t1]] enough].
  rewrite !plan_values_app, Ha0, Ha1. simpl.
  destruct H as [T0 T1]. unfold leftover in *.
  destruct (ok t0); simpl in *.
  - rewrite Hd in *. simpl in *. by rewrite app_nil_r.
  - done.
Qed.

End sorted.

(** X13: on batches of one value the pairwise engine is a merge.  When
    no batch of the two sources has more than one value, the values of
    either source are in the order of [cmp], and [cmp] is the comparison
    of a total preorder, the values that the engine yields are in the
    order of [cmp]. *)
Theorem merge2_single_value_batches_sorted {V T : Type} `{!Zero V, !Tree V T}
    (cmp : V → V → Z) (seq0 seq1 : Seq (list V)) :
  (∀ a b c, (cmp a b ≤ 0)%Z → (cmp b c ≤ 0)%Z → (cmp a c ≤ 0)%Z) →
  (∀ a b, (0 ≤ cmp a b)%Z → (cmp b a ≤ 0)%Z) →
  Forall (λ b, length b ≤ 1) (to_list seq0) →
  Forall (λ b, length b ≤ 1) (to_list seq1) →
  Sorted (not_after cmp) (concat (to_list seq0)) →
  Sorted (not_after cmp) (concat (to_list seq1)) →
  Sorted (not_after cmp) (concat (to_list (MergeSliceFunc cmp [seq0; seq1]))).
Proof.
  intros Htrans Hanti H0 H1 S0 S1.
  change (MergeSliceFunc cmp [seq0; seq1]) with (merge2 bufferSize cmp seq0 seq1).
  rewrite merge2_concat by (unfold bufferSize; lia).
  assert (Transitive (not_after cmp)) as Ht.
  { intros a b c. apply Htrans. }
  apply StronglySorted_Sorted.
  apply (merge2_values_sorted cmp Htrans Hanti); try done;
    by apply Sorted_StronglySorted.
Qed.

Lemma merge2_single_value_batches_sorted_witness :
  Sorted (not_after Compare)
    (concat (to_list (MergeSliceFunc Compare
                        [of_list [[1]; []; [3]]%Z; of_list [[2]; [3]]%Z]))).
Proof.
  apply (merge2_single_value_batches_sorted Compare
           (of_list [[1]; []; [3]]%Z) (of_list [[2]; [3]]%Z)).
  - intros a b c. unfold Compare.
    destruct (Z.compare_spec a b), (Z.compare_spec b c), (Z.compare_spec a c); lia.
  - intros a b. unfold Compare.
    destruct (Z.compare_spec a b), (Z.compare_spec b a); lia.
  - rewrite to_list_of_list. repeat constructor.
  - rewrite to_list_of_list. repeat constructor.
  - rewrite to_list_of_list. simpl. repeat constructor. by vm_compute.
  - rewrite to_list_of_list. simpl. repeat constructor. by vm_compute.
Defined.

(** ** The capacity of the output buffer *)


